(** * Events: the event bus of [src/base/events.js]

    [Events] extends Node's [EventEmitter] with name lists ([on], [off],
    [triggerThen], [once] take a string that lodash's [words] cuts into
    names), a promise-collecting [triggerThen] and a [once] built on
    lodash's [_.once].

    The development has three layers.
    - The libraries the file imports, each in a module of its own:
      [Lodash] ([words], [before]/[once]), [EventEmitter] (the listener
      table, [on], [removeAllListeners], [listeners], [emit]) and
      [Promise] ([map]).
    - The five methods of [Events], written over a state-and-exception
      monad on the bus.
    - The properties of the methods.

    Functions supplied by the caller are leaves: calling one yields a
    value or throws, as the [Host] of the bus decides from the history of
    calls; it does not call back into the bus.  The emitter's two
    bookkeeping events ([newListener], [removeListener]) are not
    modelled: no listener is assumed to be registered under them. *)

From Stdlib Require Import ZArith Ascii String List Lia Bool.
From stdpp Require Import base option list gmap strings sorting.

Local Open Scope string_scope.
Local Open Scope Z_scope.
Local Open Scope list_scope.

(** ** JavaScript values *)

(** A function is known by its identity.  A caller's function is [User k].
    [Wrapper id name callback arguments] is the closure [once] builds: [id]
    is its identity and the key of its mutable variables ([n] and [result]
    of lodash's [before]); [name], [callback] and [arguments] are the
    bindings of the enclosing call of [once] that the arrow function
    captures. *)
Inductive value : Type :=
| VUndefined
| VBool (b : bool)
| VNum (n : Z)
| VStr (s : string)
| VObj (o : nat)
| VError (message : string)
| VUnhandledError (context : value)
| VPromise (p : nat)
| VBus
| VFun (f : fn)
with fn : Type :=
| User (k : nat)
| Wrapper (id : nat) (name : string) (callback : fn) (arguments : list value).

(** [===] on two functions: same object. *)
Definition same_fn (f g : fn) : bool :=
  match f, g with
  | User j, User k => Nat.eqb j k
  | Wrapper i _ _ _, Wrapper j _ _ _ => Nat.eqb i j
  | _, _ => false
  end.

(** The [_callback] property, which [once] sets on its wrapper. *)
Definition _callback (f : fn) : option fn :=
  match f with
  | User _ => None
  | Wrapper _ _ callback _ => Some callback
  end.

(** How a call ends. *)
Inductive completion (A : Type) : Type :=
| Normal (a : A)
| Throw (e : value).
Arguments Normal {A} a.
Arguments Throw {A} e.

(** ** The bus and its host *)

(** Every application of a function value is recorded: who applied it
    ([emit] for an event, the mapper of [triggerThen], or the closure of
    [once]), the function, [this] and the arguments. *)
Inductive caller : Type :=
| ByEmit (type : string)
| ByMap
| ByOnce (id : nat).

Record call : Type := Call {
  by_whom : caller;
  callee : fn;
  this : value;
  args : list value
}.

(** What the bus does not decide: what a caller's function does when it
    is applied, given the calls made so far, its own included; how the
    promise a listener returned ends, and after how many turns of the
    event loop ([None]: never); and the property key a value that is not
    a string turns into. *)
Class Host : Type := {
  behave : list call -> nat -> value -> list value -> completion value;
  fate : nat -> option (nat * completion value);
  toPropertyKey : value -> string
}.

(** The mutable variables of one closure of lodash's [before]. *)
Record cell : Type := Cell {
  n : Z;
  result : value
}.

(** One instance of [Events]: the emitter's table [_events], the variables
    of the closures made so far, the identity of the next closure, and the
    history of calls. *)
Record Bus : Type := MkBus {
  _events : gmap string (list fn);
  cells : gmap nat cell;
  next : nat;
  calls : list call
}.

Definition new_bus : Bus :=
  {| _events := ∅; cells := ∅; next := O; calls := [] |}.

Definition with_events (f : gmap string (list fn) -> gmap string (list fn))
    (b : Bus) : Bus :=
  {| _events := f (_events b); cells := cells b; next := next b;
     calls := calls b |}.

Definition with_cells (f : gmap nat cell -> gmap nat cell) (b : Bus) : Bus :=
  {| _events := _events b; cells := f (cells b); next := next b;
     calls := calls b |}.

Definition with_next (k : nat) (b : Bus) : Bus :=
  {| _events := _events b; cells := cells b; next := k; calls := calls b |}.

Definition with_call (c : call) (b : Bus) : Bus :=
  {| _events := _events b; cells := cells b; next := next b;
     calls := calls b ++ [c] |}.

(** ** Statements that change the bus and may throw *)

Definition M (A : Type) : Type := Bus -> completion A * Bus.

#[global] Instance M_ret : MRet M := fun A a b => (Normal a, b).

#[global] Instance M_bind : MBind M := fun A B f m b =>
  match m b with
  | (Normal a, b') => f a b'
  | (Throw e, b') => (Throw e, b')
  end.

Definition throw {A : Type} (e : value) : M A := fun b => (Throw e, b).

Definition get : M Bus := fun b => (Normal b, b).

Definition modify (f : Bus -> Bus) : M unit := fun b => (Normal tt, f b).

(** [try { m } catch (e) { ... }]: the completion of [m], as a value. *)
Definition attempt {A : Type} (m : M A) : M (completion A) := fun b =>
  match m b with
  | (c, b') => (Normal c, b')
  end.

(** [for (const x of l) body(x)] *)
Fixpoint for_of {A B : Type} (l : list A) (body : A -> M B) : M unit :=
  match l with
  | [] => mret tt
  | x :: r => body x ;; for_of r body
  end.

(** The bus after [m], whether it returned or threw. *)
Definition exec {A : Type} (m : M A) (b : Bus) : Bus := snd (m b).

(** ** lodash *)

Module Lodash.

(** [words] below is [words(string)] with its default pattern, lodash 3's
    [reWords] (the three-argument [map] of [triggerThen] is lodash 3's):
    [upper+(?=upper lower)|upper? lower|upper+|[0-9]+] where [upper] is
    [[A-Z\xc0-\xd6\xd8-\xde]] and [lower] is [[a-z\xdf-\xf6\xf8-\xff]+].
    A character is a code unit below 256.  (On names made of small
    letters, spaces and colons, as in the statements below, lodash 4
    finds the same words.) *)
Definition code (c : ascii) : N := N_of_ascii c.

Definition between (lo hi : N) (c : ascii) : bool :=
  (N.leb lo (code c) && N.leb (code c) hi)%bool.

Definition upper (c : ascii) : bool :=
  (between 65 90 c || between 192 214 c || between 216 222 c)%bool.

Definition lower (c : ascii) : bool :=
  (between 97 122 c || between 223 246 c || between 248 255 c)%bool.

Definition digit (c : ascii) : bool := between 48 57 c.

(** [p+], greedy: the longest non-empty run of [p], and what follows. *)
Fixpoint many1 (p : ascii -> bool) (l : list ascii)
  : option (list ascii * list ascii) :=
  match l with
  | c :: r =>
      if p c then
        match many1 p r with
        | Some (t, rest) => Some (c :: t, rest)
        | None => Some ([c], r)
        end
      else None
  | [] => None
  end.

(** [(?=upper lower)] *)
Definition ahead_upper_lower (l : list ascii) : bool :=
  match l with
  | u :: lo :: _ => (upper u && lower lo)%bool
  | _ => false
  end.

(** [upper+(?=upper lower)]: the longest run first, then shorter ones. *)
Fixpoint upper_run_before_word (l : list ascii)
  : option (list ascii * list ascii) :=
  match l with
  | c :: r =>
      if upper c then
        match upper_run_before_word r with
        | Some (t, rest) => Some (c :: t, rest)
        | None => if ahead_upper_lower r then Some ([c], r) else None
        end
      else None
  | [] => None
  end.

(** [upper? lower]: with the capital when that matches, else without. *)
Definition capitalised_word (l : list ascii)
  : option (list ascii * list ascii) :=
  let with_capital :=
    match l with
    | c :: r =>
        if upper c then
          match many1 lower r with
          | Some (t, rest) => Some (c :: t, rest)
          | None => None
          end
        else None
    | [] => None
    end in
  match with_capital with
  | Some m => Some m
  | None => many1 lower l
  end.

(** The alternatives of [reWords], tried in order at one position. *)
Definition reWords_at (l : list ascii) : option (list ascii * list ascii) :=
  match upper_run_before_word l with
  | Some m => Some m
  | None =>
      match capitalised_word l with
      | Some m => Some m
      | None =>
          match many1 upper l with
          | Some m => Some m
          | None => many1 digit l
          end
      end
  end.

(** [string.match(reWords)] with the [g] flag: all matches, left to
    right; a position where nothing matches is skipped.  Every match
    takes at least one character, so the length of the string is fuel
    enough. *)
Fixpoint match_all (fuel : nat) (l : list ascii) : list (list ascii) :=
  match fuel with
  | O => []
  | S fuel' =>
      match l with
      | [] => []
      | _ :: r =>
          match reWords_at l with
          | Some (t, rest) => t :: match_all fuel' rest
          | None => match_all fuel' r
          end
      end
  end.

(** [words(string)]: [string.match(reWords) || []]. *)
Definition words (s : string) : list string :=
  let l := list_ascii_of_string s in
  map string_of_list_ascii (match_all (length l) l).

(** [each(collection, iteratee)]: left to right; an iteratee that
    returns [false] ends the iteration. *)
Fixpoint each {A : Type} (l : list A) (iteratee : A -> M value) : M unit :=
  match l with
  | [] => mret tt
  | x :: r =>
      v ← iteratee x;
      match v with
      | VBool false => mret tt
      | _ => each r iteratee
      end
  end.

(** [map(collection, iteratee, thisArg)]: the results of the iteratee,
    called as a method of [thisArg], in the order of the collection. *)
Fixpoint map_ {A B : Type} (l : list A) (iteratee : A -> M B) : M (list B) :=
  match l with
  | [] => mret []
  | x :: r => y ← iteratee x; ys ← map_ r iteratee; mret (y :: ys)
  end.

Definition flatten {A : Type} (l : list (list A)) : list A := concat l.

(** [before(n, func)]: a new closure with its own [n] and [result]. *)
Definition before (n0 : Z) : M nat :=
  b ← get;
  modify (fun b => with_next (S (next b))
            (with_cells (insert (next b) (Cell n0 VUndefined)) b));;
  mret (next b).

(** [once(func)] is [before(2, func)]. *)
Definition once : M nat := before 2.

Definition read (id : nat) : M cell :=
  b ← get; mret (default (Cell 2 VUndefined) (cells b !! id)).

(** The function [before] returns, applied:
    [if (--n > 0) result = func.apply(this, arguments);
     if (n <= 1) func = undefined;
     return result].
    [func] here takes neither [this] nor arguments (an arrow function
    that names none of its own), and nothing reads [func] once [n] is
    at most 1. *)
Definition before_apply (id : nat) (func : M value) : M value :=
  c ← read id;
  let n' := n c - 1 in
  modify (with_cells (insert id (Cell n' (result c))));;
  (if 0 <? n'
   then r ← func;
        c1 ← read id;
        modify (with_cells (insert id (Cell (n c1) r)))
   else mret tt);;
  c' ← read id;
  mret (result c').

End Lodash.

(** ** Node's EventEmitter *)

Module EventEmitter.
Section WithHost.
Context {host : Host}.

(** The key [events[type]] reads or writes. *)
Definition key (type : value) : string :=
  match type with
  | VStr s => s
  | v => toPropertyKey v
  end.

(** [on(...arguments)], that is [on(type, listener)]: a listener that is
    not a function is a [TypeError]; otherwise the listener goes to the
    end of the list of [type].  Arguments after the second are not
    parameters.  Returns the emitter. *)
Definition on (arguments : list value) : M value :=
  match arguments with
  | type :: VFun listener :: _ =>
      modify (with_events (fun events =>
        <[key type := default [] (events !! key type) ++ [listener]]> events));;
      mret VBus
  | _ => throw (VError "The listener argument must be of type function")
  end.

(** [removeAllListeners(...arguments)]: with no argument the table is
    emptied; otherwise the first argument is the type whose whole list
    is deleted, and later arguments are not parameters.  Returns the
    emitter. *)
Definition removeAllListeners (arguments : list value) : M value :=
  match arguments with
  | [] => modify (with_events (fun _ => ∅));; mret VBus
  | type :: _ => modify (with_events (delete (key type)));; mret VBus
  end.

(** [listeners(type)]: a copy of the list of [type]. *)
Definition listeners (type : string) : M (list fn) :=
  b ← get; mret (default [] (_events b !! type)).

(** [er instanceof Error]: the errors among the values are the plain
    ones and the emitter's own unhandled-error objects. *)
Definition instanceof_Error (er : value) : bool :=
  match er with
  | VError _ | VUnhandledError _ => true
  | _ => false
  end.

(** What [emit('error', ...)] throws when nothing listens for
    ['error']: the first argument itself if it is an [Error], else a
    new unhandled-error object holding it as its context. *)
Definition unhandled (args : list value) : value :=
  let er := match args with
            | er :: _ => er
            | [] => VUndefined
            end in
  if instanceof_Error er then er else VUnhandledError er.

(** [emit(type, ...args)]: throws for ['error'] without a listener;
    otherwise applies a copy of the list of [type], in order, to
    [args] with the emitter as [this], and tells whether there was a
    list.  [apply] is how a function value is applied. *)
Definition emit (apply : fn -> value -> list value -> M value)
    (type : string) (args : list value) : M bool :=
  b ← get;
  match _events b !! type with
  | None =>
      if String.eqb type "error" then throw (unhandled args)
      else mret false
  | Some handler =>
      for_of handler (fun listener => apply listener VBus args);;
      mret true
  end.

End WithHost.
End EventEmitter.

(** ** Promise *)

Module Promise.
Section WithHost.
Context {host : Host}.

(** What becomes of a promise. *)
Inductive settlement : Type :=
| Pending
| Fulfilled (values : list value)
| Rejected (reason : value).

(** The result of the mapper at [index] is known at turn [turn] of the
    event loop. *)
Record arrival : Type := Arrival {
  turn : nat;
  index : nat;
  what : completion value
}.

(** When the result of one mapper call is known: a throw or a plain
    value at once (turn 0), a promise when its fate says, if ever. *)
Definition arrival_of (index : nat) (c : completion value) : list arrival :=
  match c with
  | Throw e => [Arrival O index (Throw e)]
  | Normal (VPromise p) =>
      match fate p with
      | Some (t, c') => [Arrival (S t) index c']
      | None => []
      end
  | Normal v => [Arrival O index (Normal v)]
  end.

Fixpoint arrivals_from (index : nat) (l : list (completion value))
  : list arrival :=
  match l with
  | [] => []
  | c :: r => arrival_of index c ++ arrivals_from (S index) r
  end.

(** Arrivals in the order they happen: by turn, and within a turn in
    the order of the calls ([in_order] takes them in the order of the
    calls and puts each before the later calls of its turn). *)
Fixpoint enqueue (a : arrival) (q : list arrival) : list arrival :=
  match q with
  | [] => [a]
  | a' :: q' =>
      if (turn a <=? turn a')%nat then a :: q else a' :: enqueue a q'
  end.

Fixpoint in_order (l : list arrival) : list arrival :=
  match l with
  | [] => []
  | a :: r => enqueue a (in_order r)
  end.

(** The aggregate while it collects: one slot per call, and the first
    failure seen. *)
Record collector : Type := Collector {
  slots : list (option value);
  failed : option value
}.

Definition receive (c : collector) (a : arrival) : collector :=
  match failed c with
  | Some _ => c
  | None =>
      match what a with
      | Normal v => Collector (<[index a := Some v]> (slots c)) None
      | Throw e => Collector (slots c) (Some e)
      end
  end.

Fixpoint filled (l : list (option value)) : option (list value) :=
  match l with
  | [] => Some []
  | Some v :: r =>
      match filled r with
      | Some vs => Some (v :: vs)
      | None => None
      end
  | None :: _ => None
  end.

Definition outcome (c : collector) : settlement :=
  match failed c with
  | Some e => Rejected e
  | None =>
      match filled (slots c) with
      | Some vs => Fulfilled vs
      | None => Pending
      end
  end.

(** Modelled from the spec: what becomes of the aggregate of
    [Promise.map] (module [./promise], not among the sources), given the
    results of the mapper in the order of the calls: the arrivals are
    received in the order they happen. *)
Definition settle (results : list (completion value)) : settlement :=
  outcome
    (fold_left receive (in_order (arrivals_from O results))
       (Collector (replicate (length results) None) None)).

(** Modelled from the spec: [Promise.map] of the repository's
    [./promise] module, which is not among the sources.  The mapper is
    called on each item in order; a call that throws counts as a
    failed result.  The aggregate succeeds with the values in the
    order of the calls once every result has succeeded, and fails
    with the first failure to happen, without waiting for the rest.
    The value returned here is what becomes of the aggregate. *)
Definition map {A : Type} (items : list A) (mapper : A -> M value)
  : M settlement :=
  results ← Lodash.map_ items (fun item => attempt (mapper item));
  mret (settle results).

End WithHost.
End Promise.

(** ** Events *)

Section Events.
Context {host : Host}.

(** [const flatMap = flow(map, flatten)] *)
Definition flatMap {A B : Type} (l : list A) (iteratee : A -> M (list B))
  : M (list B) :=
  per_item ← Lodash.map_ l iteratee;
  mret (Lodash.flatten per_item).

(** [on(nameOrNames, handler, ...args)] *)
Definition on (nameOrNames : string) (handler : fn) (args : list value)
  : M value :=
  for_of (Lodash.words nameOrNames) (fun name =>
    EventEmitter.on ([VStr name; VFun handler] ++ args));;
  mret VBus.

(** [off(nameOrNames, listener)]; [None] is [null] or [undefined]. *)
Definition off (nameOrNames : option string) (listener : option fn)
  : M value :=
  match nameOrNames with
  | None =>
      match listener with
      | None => EventEmitter.removeAllListeners []
      | Some l => EventEmitter.removeAllListeners [VFun l]
      end
  | Some names =>
      Lodash.each (Lodash.words names)
        (match listener with
         | None => fun name =>
             EventEmitter.removeAllListeners [VStr name]
         | Some l => fun name =>
             EventEmitter.removeAllListeners [VStr name; VFun l]
         end);;
      mret VBus
  end.

(** [f.apply(this, args)] by [who].  A caller's function does what the
    host says.  The wrapper of [once] is the function [_.once] returned
    for the arrow function
    [() => { this.off(name, once); return callback.apply(this, arguments) }],
    where [this] and [arguments] are those of the call of [once]. *)
Fixpoint apply (who : caller) (f : fn) (this : value) (args : list value)
  : M value :=
  modify (with_call (Call who f this args));;
  match f with
  | User k =>
      b ← get;
      match behave (calls b) k this args with
      | Normal v => mret v
      | Throw e => throw e
      end
  | Wrapper id name callback arguments =>
      Lodash.before_apply id
        (off (Some name) (Some f);;
         apply (ByOnce id) callback VBus arguments)
  end.

(** What [for (const name of nameOrNames)] goes through: the elements of
    an array, the characters of a string.  The strings here hold
    characters below 256, each of them one code point. *)
Inductive iterable : Type :=
| Names (l : list string)
| Str (s : string).

Definition iterate (it : iterable) : list string :=
  match it with
  | Names l => l
  | Str s => List.map (fun c => String c EmptyString) (list_ascii_of_string s)
  end.

(** [trigger(nameOrNames, ...args)] *)
Definition trigger (nameOrNames : iterable) (args : list value) : M value :=
  for_of (iterate nameOrNames) (fun name =>
    EventEmitter.emit (apply (ByEmit name)) name args);;
  mret VBus.

(** [triggerThen(nameOrNames, ...args)] *)
Definition triggerThen (nameOrNames : string) (args : list value)
  : M Promise.settlement :=
  let names := Lodash.words nameOrNames in
  listeners ← flatMap names EventEmitter.listeners;
  Promise.map listeners (fun listener => apply ByMap listener VBus args).

(** [once(name, callback, context)]; [context] is [None] when the call
    has two arguments.  The [_callback] the method sets on the wrapper is
    read off the wrapper by [_callback] above. *)
Definition once (name : string) (callback : fn) (context : option value)
  : M value :=
  let arguments :=
    [VStr name; VFun callback] ++ match context with
                                  | Some c => [c]
                                  | None => []
                                  end in
  id ← Lodash.once;
  let once := Wrapper id name callback arguments in
  on name once [default VUndefined context].

End Events.

(** ** A host for the examples *)

(** Every function returns [undefined], except function 13, which throws
    [Error("boom")], function 1, which returns 1, and function 2, which
    returns promise 0; promise 0 is fulfilled with 2 after three turns; a
    function used as a property key reads as its source text, which is no
    event name. *)
Definition example_host : Host := {|
  behave := fun _ k _ _ =>
    match k with
    | 13%nat => Throw (VError "boom")
    | 1%nat => Normal (VNum 1)
    | 2%nat => Normal (VPromise 0)
    | _ => Normal VUndefined
    end;
  fate := fun p =>
    match p with
    | O => Some (3%nat, Normal (VNum 2))
    | _ => None
    end;
  toPropertyKey := fun _ => "function () { [native code] }"
|}.

(** A program against the bus: a list of method calls.  The functions it
    passes are the caller's own, named by their numbers. *)
Inductive op : Type :=
| On (nameOrNames : string) (handler : nat)
| Off (nameOrNames : option string) (listener : option nat)
| Once (name : string) (callback : nat) (context : option value)
| Trigger (nameOrNames : iterable) (args : list value)
| TriggerThen (nameOrNames : string) (args : list value).

Section Programs.
Context {host : Host}.

Definition step (o : op) (b : Bus) : Bus :=
  match o with
  | On names h => exec (on names (User h) []) b
  | Off names l => exec (off names (User <$> l)) b
  | Once name cb ctx => exec (once name (User cb) ctx) b
  | Trigger it args => exec (trigger it args) b
  | TriggerThen names args => exec (triggerThen names args) b
  end.

(** The bus after the calls of [p], one after the other; a call that
    throws is caught by the caller, who goes on. *)
Definition run (p : list op) (b : Bus) : Bus :=
  fold_left (fun b o => step o b) p b.

End Programs.

(** ** What is observed of a bus *)

(** The listeners of [name], in the order they were registered. *)
Definition registered (b : Bus) (name : string) : list fn :=
  default [] (_events b !! name).

Definition by_emit (c : call) : bool :=
  match by_whom c with
  | ByEmit _ => true
  | _ => false
  end.

Definition by_map (c : call) : bool :=
  match by_whom c with
  | ByMap => true
  | _ => false
  end.

Definition by_once (id : nat) (c : call) : bool :=
  match by_whom c with
  | ByOnce id' => Nat.eqb id id'
  | _ => false
  end.

Definition is_by_once (c : call) : Prop := ∃ id, by_whom c = ByOnce id.

(** The calls [emit] makes for [name] when it applies [ls] to [args]. *)
Definition delivery (name : string) (args : list value) (ls : list fn)
  : list call :=
  List.map (fun l => Call (ByEmit name) l VBus args) ls.

Section Observed.
Context {host : Host}.

(** The calls [trigger] owes for [names]: for each name in turn, the
    listeners registered under it when the loop gets to it. *)
Fixpoint deliveries (names : list string) (args : list value) (b : Bus)
  : list call :=
  match names with
  | [] => []
  | name :: rest =>
      delivery name args (registered b name) ++
      deliveries rest args
        (exec (EventEmitter.emit (apply (ByEmit name)) name args) b)
  end.

(** [ls] invoked in order by [who], each with the bus as [this] and
    [args], from bus [b]: every listener up to the first that throws is
    applied once, and none after it.  The completion is that throw, or
    a return when all have returned; the last index is the bus at that
    point. *)
Inductive invokes (who : caller) (args : list value)
  : list fn -> Bus -> completion unit -> Bus -> Prop :=
| invokes_none b :
    invokes who args [] b (Normal tt) b
| invokes_returns l ls b v b1 c b2 :
    apply who l VBus args b = (Normal v, b1) →
    invokes who args ls b1 c b2 →
    invokes who args (l :: ls) b c b2
| invokes_throws l ls b e b1 :
    apply who l VBus args b = (Throw e, b1) →
    invokes who args (l :: ls) b (Throw e) b1.

(** What [trigger] is to do for [names], in words: the names are taken
    in order; for each, the listeners registered under it when its turn
    comes are invoked in the order of their registration, and when they
    have all returned the next name is taken; after the last name the
    bus is returned.  When a listener throws, or when the turn of
    ["error"] comes while nothing is registered under it, that is
    thrown there and then, and nothing further is invoked. *)
Inductive delivers (args : list value)
  : list string -> Bus -> completion value -> Bus -> Prop :=
| delivers_end b :
    delivers args [] b (Normal VBus) b
| delivers_name name names b b1 c b2 :
    (name = "error" → _events b !! "error" ≠ None) →
    invokes (ByEmit name) args (registered b name) b (Normal tt) b1 →
    delivers args names b1 c b2 →
    delivers args (name :: names) b c b2
| delivers_listener_throws name names b e b1 :
    invokes (ByEmit name) args (registered b name) b (Throw e) b1 →
    delivers args (name :: names) b (Throw e) b1
| delivers_unhandled names b :
    _events b !! "error" = None →
    delivers args ("error" :: names) b
      (Throw (EventEmitter.unhandled args)) b.

(** The listeners [triggerThen] collects from bus [b]. *)
Definition collected (b : Bus) (nameOrNames : string) : list fn :=
  List.flat_map (registered b) (Lodash.words nameOrNames).

(** Applying them in order, each result kept as it comes. *)
Definition answers (ls : list fn) (args : list value)
  : M (list (completion value)) :=
  Lodash.map_ ls (fun l => attempt (apply ByMap l VBus args)).

(** The results of the listeners of one call of [triggerThen]. *)
Definition told (nameOrNames : string) (args : list value) (b : Bus)
  : list (completion value) :=
  match fst (answers (collected b nameOrNames) args b) with
  | Normal results => results
  | Throw _ => []
  end.

(** The value a result succeeds with: a plain value at once, a promise
    with what it is fulfilled with. *)
Definition resolves (c : completion value) : option value :=
  match c with
  | Throw _ => None
  | Normal (VPromise p) =>
      match fate p with
      | Some (_, Normal v) => Some v
      | _ => None
      end
  | Normal v => Some v
  end.

(** The turn and the reason a result fails with: a throw at once (turn
    0), a promise when it is rejected. *)
Definition fails (c : completion value) : option (nat * value) :=
  match c with
  | Throw e => Some (O, e)
  | Normal (VPromise p) =>
      match fate p with
      | Some (t, Throw e) => Some (S t, e)
      | _ => None
      end
  | Normal _ => None
  end.

(** [a] happens no later than [a']. *)
Definition no_later (a a' : Promise.arrival) : Prop :=
  (Promise.turn a < Promise.turn a')%nat ∨
  (Promise.turn a = Promise.turn a' ∧
   (Promise.index a ≤ Promise.index a')%nat).

(** A success lands in the slot of its call. *)
Definition put (s : list (option value)) (a : Promise.arrival)
  : list (option value) :=
  match Promise.what a with
  | Normal v => <[Promise.index a := Some v]> s
  | Throw _ => s
  end.

End Observed.

(** *** What the specification asks of [off] *)

(** "Identity matching must compare against the original caller-supplied
    callback, not an internal once-wrapper": a registration matches [cb]
    when it is [cb] or its [_callback] is. *)
Definition matches (cb : fn) (f : fn) : bool :=
  same_fn f cb ||
  match _callback f with
  | Some original => same_fn original cb
  | None => false
  end.

(** The list of a name after the registrations matching [cb] are removed
    from it and the others left in place. *)
Definition without (cb : fn) (ls : list fn) : list fn :=
  List.filter (fun f => negb (matches cb f)) ls.

(** *** The closures of [once] *)

(** How many times closure [id] has applied its callback. *)
Definition fired (id : nat) (b : Bus) : nat :=
  length (List.filter (by_once id) (calls b)).

(** The functions a program can get registered: its own, and closures of
    [once] over its own that exist already. *)
Definition plain (bound : nat) (f : fn) : Prop :=
  match f with
  | User _ => True
  | Wrapper id _ (User _) _ => (id < bound)%nat
  | Wrapper _ _ (Wrapper _ _ _ _) _ => False
  end.

(** What holds of a bus however a program got to it: the table holds
    plain functions; a closure that does not exist yet has applied
    nothing; an existing closure has its variables, with [n] at most its
    initial 2, and has applied nothing while [n] is 2; no closure has
    applied its callback twice. *)
Record sound (b : Bus) : Prop := Sound {
  sound_table : ∀ name ls,
    _events b !! name = Some ls → Forall (plain (next b)) ls;
  sound_fresh : ∀ id, (next b ≤ id)%nat → fired id b = O;
  sound_cell : ∀ id, (id < next b)%nat →
    ∃ c, cells b !! id = Some c ∧ n c ≤ 2 ∧ (n c = 2 → fired id b = O);
  sound_once : ∀ id, (fired id b ≤ 1)%nat
}.

(** [m] keeps a sound bus sound and abandons no closure, from any bus
    where at least [k] closures exist. *)
Definition keeps {A : Type} (k : nat) (m : M A) : Prop :=
  ∀ b, sound b → (k ≤ next b)%nat →
       sound (snd (m b)) ∧ (next b ≤ next (snd (m b)))%nat.

(** [m] keeps [I]. *)
Definition preserves {A : Type} (I : Bus -> Prop) (m : M A) : Prop :=
  ∀ b, I b → I (snd (m b)).

(** A function that is not the caller's [cb], and wraps [cb] only if it
    is closure [id]. *)
Definition foreign (cb id : nat) (f : fn) : Prop :=
  match f with
  | User k => k ≠ cb
  | Wrapper i _ (User k) _ => k = cb → i = id
  | Wrapper _ _ (Wrapper _ _ _ _) _ => False
  end.

(** [cb] is in the hands of closure [id] alone: it is not registered
    itself, no other closure wraps it, and only closure [id] has applied
    it. *)
Definition owned (cb id : nat) (b : Bus) : Prop :=
  (∀ name ls, _events b !! name = Some ls → Forall (foreign cb id) ls) ∧
  Forall (fun c => callee c = User cb → by_whom c = ByOnce id) (calls b).

(** The call [o] hands the caller's function [cb] to the bus. *)
Definition uses (cb : nat) (o : op) : bool :=
  match o with
  | On _ h => Nat.eqb h cb
  | Once _ h _ => Nat.eqb h cb
  | _ => false
  end.

Definition is_user (cb : nat) (f : fn) : bool :=
  match f with
  | User k => Nat.eqb k cb
  | Wrapper _ _ _ _ => false
  end.

(** How many times the caller's function [cb] has been applied. *)
Definition applied (cb : nat) (b : Bus) : nat :=
  length (List.filter (fun c => is_user cb (callee c)) (calls b)).

(** *** Names *)

(** The characters lodash's [words] keeps: capitals, small letters and
    digits. *)
Definition word_char (c : ascii) : bool :=
  (Lodash.upper c || Lodash.lower c || Lodash.digit c)%bool.

Definition word_string (s : string) : bool :=
  forallb word_char (list_ascii_of_string s).

(** A name written in small letters only. *)
Definition small_letters (s : string) : bool :=
  forallb Lodash.lower (list_ascii_of_string s).

(** From [b] to [b'] the list of a name is kept or deleted; no list is
    changed and none is added. *)
Definition only_removes (b b' : Bus) : Prop :=
  ∀ name, _events b' !! name = _events b !! name ∨ _events b' !! name = None.

(** * Proofs *)

(** ** lodash's [words] on some names *)

Example words_space : Lodash.words "a b" = ["a"; "b"].
Proof. reflexivity. Qed.
Example words_colon :
  Lodash.words "fetched:collection" = ["fetched"; "collection"].
Proof. reflexivity. Qed.
Example words_camel :
  Lodash.words "fooBar XMLHttp x1" = ["foo"; "Bar"; "XML"; "Http"; "x"; "1"].
Proof. reflexivity. Qed.
Example words_blank : Lodash.words "  " = [].
Proof. reflexivity. Qed.

(** ** Reasoning about statements *)

Lemma bind_unfold {A B : Type} (m : M A) (f : A -> M B) (b : Bus) :
  (m ≫= f) b =
  match m b with
  | (Normal a, b') => f a b'
  | (Throw e, b') => (Throw e, b')
  end.
Proof. reflexivity. Qed.

Lemma filter_by_once_nil (P : call -> bool) (l : list call) :
  (∀ c, is_by_once c → P c = false) →
  Forall is_by_once l → List.filter P l = [].
Proof.
  intros HP Hl. induction Hl as [|c l Hc _ IH]; simpl; [done|].
  by rewrite (HP c Hc).
Qed.

Section Facts.
Context {host : Host}.

(** [off] never throws and makes no call. *)
Lemma removeAllListeners_calls arguments b :
  ∃ b', EventEmitter.removeAllListeners arguments b = (Normal VBus, b') ∧
        calls b' = calls b ∧ cells b' = cells b ∧ next b' = next b.
Proof. destruct arguments; eexists; split; reflexivity || done. Qed.

Lemma each_remove_calls (names : list string) (rest : list value) b :
  ∃ b', Lodash.each names
          (fun name => EventEmitter.removeAllListeners (VStr name :: rest)) b
        = (Normal tt, b') ∧
        calls b' = calls b ∧ cells b' = cells b ∧ next b' = next b.
Proof.
  revert b. induction names as [|name names IH]; intros b.
  - by eexists.
  - destruct (IH (with_events (delete name) b)) as (b' & E & ? & ? & ?).
    exists b'. split; [|done].
    simpl. rewrite bind_unfold. simpl. exact E.
Qed.

(** The table after the loop of [off]: the list of every name of the
    loop is gone, the others are as they were. *)
Lemma each_remove_events (names : list string) (rest : list value) :
  ∀ b name,
  _events
    (snd (Lodash.each names
            (fun nm => EventEmitter.removeAllListeners (VStr nm :: rest)) b))
    !! name
  = if bool_decide (name ∈ names) then None else _events b !! name.
Proof.
  induction names as [|nm names IH]; intros b name.
  - cbn [Lodash.each mret M_ret snd]. case_bool_decide; [|done].
    by apply elem_of_nil in H.
  - cbn [Lodash.each]. rewrite bind_unfold.
    change (EventEmitter.removeAllListeners (VStr nm :: rest) b)
      with (Normal VBus, with_events (delete nm) b).
    cbn iota. rewrite IH. cbn [with_events _events].
    destruct (decide (nm = name)) as [->|Hne].
    + rewrite lookup_delete_eq.
      repeat case_bool_decide; try done; set_solver.
    + rewrite lookup_delete_ne by done.
      repeat case_bool_decide; try done; set_solver.
Qed.

Lemma off_calls nameOrNames listener b :
  ∃ b', off nameOrNames listener b = (Normal VBus, b') ∧
        calls b' = calls b ∧ cells b' = cells b ∧ next b' = next b.
Proof.
  destruct nameOrNames as [names|].
  - unfold off.
    assert (∃ rest, (match listener with
              | None => fun name => EventEmitter.removeAllListeners [VStr name]
              | Some l => fun name =>
                  EventEmitter.removeAllListeners [VStr name; VFun l]
              end) = fun name => EventEmitter.removeAllListeners (VStr name :: rest))
      as [rest ->] by (destruct listener; eexists; reflexivity).
    destruct (each_remove_calls (Lodash.words names) rest b)
      as (b' & E & ? & ? & ?).
    exists b'. split; [|done]. rewrite bind_unfold, E. reflexivity.
  - destruct listener; apply removeAllListeners_calls.
Qed.

(** [off] with a name list does the same with and without a listener:
    the listener is handed to [removeAllListeners], which does not take
    it. *)
Lemma off_ignores_listener names listener b :
  off (Some names) (Some listener) b = off (Some names) None b.
Proof. reflexivity. Qed.

(** After [off] with a name list, nothing is registered under any of the
    names. *)
Lemma off_clears_names names listener name b :
  name ∈ Lodash.words names →
  registered (snd (off (Some names) listener b)) name = [].
Proof.
  intros Hin. unfold registered, off.
  assert (∃ rest, (match listener with
            | None => fun name => EventEmitter.removeAllListeners [VStr name]
            | Some l => fun name =>
                EventEmitter.removeAllListeners [VStr name; VFun l]
            end) = fun name => EventEmitter.removeAllListeners (VStr name :: rest))
    as [rest ->] by (destruct listener; eexists; reflexivity).
  rewrite bind_unfold.
  pose proof (each_remove_events (Lodash.words names) rest b name) as H.
  destruct (Lodash.each _ _ b) as [[u|e] b1]; simpl in *;
    rewrite H, bool_decide_eq_true_2; done.
Qed.

(** The function [before] returned, applied: the three ways it can go. *)
Lemma before_apply_unfold id (func : M value) b :
  let c := default (Cell 2 VUndefined) (cells b !! id) in
  let n' := n c - 1 in
  let b1 := with_cells (insert id (Cell n' (result c))) b in
  Lodash.before_apply id func b =
  if 0 <? n' then
    match func b1 with
    | (Normal r, b2) =>
        (Normal r,
         with_cells
           (insert id
              (Cell (n (default (Cell 2 VUndefined) (cells b2 !! id))) r))
           b2)
    | (Throw e, b2) => (Throw e, b2)
    end
  else (Normal (result c), b1).
Proof.
  intros c n' b1. subst c n' b1.
  unfold Lodash.before_apply, Lodash.read, mbind, M_bind, mret, M_ret,
    modify, get.
  cbn beta iota.
  destruct (0 <? _); [destruct (func _) as [[r|e] b2]|];
    cbn; rewrite ?lookup_insert_eq; done.
Qed.

Lemma apply_unfold who f this args b :
  apply who f this args b =
  let b0 := with_call (Call who f this args) b in
  match f with
  | User k =>
      match behave (calls b0) k this args with
      | Normal v => (Normal v, b0)
      | Throw e => (Throw e, b0)
      end
  | Wrapper id name callback arguments =>
      Lodash.before_apply id
        (off (Some name) (Some f);;
         apply (ByOnce id) callback VBus arguments) b0
  end.
Proof.
  destruct f; simpl; rewrite bind_unfold; simpl; [|done].
  rewrite bind_unfold. simpl. by destruct (behave _ _ _ _).
Qed.

(** One application: the call is recorded, and whatever else is
    recorded with it was made by closures of [once]; no closure is
    created; a throw is a throw of one of the caller's functions. *)
Lemma apply_calls f : ∀ who this args b,
  ∃ inner,
    calls (snd (apply who f this args b))
    = calls b ++ Call who f this args :: inner ∧
    Forall is_by_once inner ∧
    next (snd (apply who f this args b)) = next b ∧
    ∀ e, fst (apply who f this args b) = Throw e →
         ∃ h k t a, behave h k t a = Throw e.
Proof.
  induction f as [k|id name callback IH arguments]; intros who this args b;
    rewrite apply_unfold; cbv zeta.
  - exists []. destruct (behave _ k this args) eqn:E; simpl;
      repeat split; try done. intros e' [= <-]. eauto.
  - rewrite before_apply_unfold. cbv zeta.
    set (b0 := with_call _ b). set (c := default _ _).
    destruct (0 <? n c - 1).
    + set (b1 := with_cells _ b0).
      rewrite bind_unfold.
      destruct (off_calls (Some name)
                  (Some (Wrapper id name callback arguments)) b1)
        as (b2 & -> & Hc & _ & Hn).
      destruct (IH (ByOnce id) VBus arguments b2) as (inner & E & Hin & Hnx & Hth).
      exists (Call (ByOnce id) callback VBus arguments :: inner).
      destruct (apply (ByOnce id) callback VBus arguments b2) as [[r|e] b3];
        simpl in *; rewrite E, Hc; (repeat split; [| |congruence|]).
      * by rewrite <-app_assoc.
      * constructor; [by exists id|done].
      * done.
      * by rewrite <-app_assoc.
      * constructor; [by exists id|done].
      * done.
    + exists []. simpl. repeat split; try done.
Qed.

(** A list of listeners applied in turn, as [emit] does: until one
    throws, each is called once, in order. *)
Lemma for_of_apply who args (P : call -> bool) :
  (∀ c, is_by_once c → P c = false) →
  (∀ l, P (Call who l VBus args) = true) →
  ∀ ls b,
  let r := for_of ls (fun l => apply who l VBus args) b in
  ∃ new done rest,
    calls (snd r) = calls b ++ new ∧
    ls = done ++ rest ∧
    List.filter P new = List.map (fun l => Call who l VBus args) done ∧
    Forall (fun c => is_by_once c ∨ by_whom c = who) new ∧
    next (snd r) = next b ∧
    match fst r with
    | Normal _ => rest = []
    | Throw e => ∃ h k t a, behave h k t a = Throw e
    end.
Proof.
  intros HP1 HP2 ls. induction ls as [|l ls IH]; intros b r.
  - exists [], [], []. subst r. simpl. by rewrite app_nil_r.
  - subst r. simpl. rewrite bind_unfold.
    destruct (apply_calls l who VBus args b) as (inner & E & Hin & Hnx & Hth).
    destruct (apply who l VBus args b) as [[v|e] b1]; simpl in *.
    + destruct (IH b1) as (new & done & rest & E1 & -> & HF & Hall & Hn1 & Hr).
      exists (Call who l VBus args :: inner ++ new), (l :: done), rest.
      rewrite E1, E, Hn1, Hnx. repeat split.
      * by rewrite <-!app_assoc.
      * simpl. rewrite HP2. simpl. f_equal.
        rewrite List.filter_app, (filter_by_once_nil P inner HP1 Hin).
        done.
      * constructor; [by right|]. apply Forall_app. split; [|done].
        eapply Forall_impl; [exact Hin|]. by left.
      * done.
    + exists (Call who l VBus args :: inner), [l], ls.
      rewrite E. repeat split; try done.
      * simpl. rewrite HP2. simpl. f_equal.
        apply (filter_by_once_nil P inner HP1 Hin).
      * constructor; [by right|]. eapply Forall_impl; [exact Hin|]. by left.
      * eauto.
Qed.

Lemma by_emit_once c : is_by_once c → by_emit c = false.
Proof. intros [id H]. unfold by_emit. by rewrite H. Qed.

(** One event. *)
Lemma emit_calls name args b :
  let r := EventEmitter.emit (apply (ByEmit name)) name args b in
  ∃ new done rest,
    calls (snd r) = calls b ++ new ∧
    registered b name = done ++ rest ∧
    List.filter by_emit new = delivery name args done ∧
    Forall (fun c => is_by_once c ∨ by_whom c = ByEmit name) new ∧
    next (snd r) = next b ∧
    match fst r with
    | Normal _ => rest = []
    | Throw e =>
        (∃ h k t a, behave h k t a = Throw e) ∨
        (e = EventEmitter.unhandled args ∧ name = "error" ∧
         _events b !! name = None)
    end.
Proof.
  intros r. subst r. unfold EventEmitter.emit, registered.
  rewrite bind_unfold. simpl.
  destruct (_events b !! name) as [handler|] eqn:Eh; simpl.
  - rewrite bind_unfold.
    destruct (for_of_apply (ByEmit name) args by_emit by_emit_once
                (fun _ => eq_refl) handler b)
      as (new & done & rest & E & Hls & HF & Hall & Hn & Hr).
    exists new, done, rest.
    destruct (for_of handler _ b) as [[u|e] b1]; simpl in *;
      repeat split; try done. by left.
  - exists [], [], [].
    destruct (String.eqb name "error") eqn:En; simpl;
      rewrite app_nil_r; repeat split; try done.
    right. apply String.eqb_eq in En. done.
Qed.

Lemma trigger_cons name rest args b :
  trigger (Names (name :: rest)) args b =
  match EventEmitter.emit (apply (ByEmit name)) name args b with
  | (Normal _, b1) => trigger (Names rest) args b1
  | (Throw e, b1) => (Throw e, b1)
  end.
Proof.
  unfold trigger. simpl. rewrite !bind_unfold.
  by destruct (EventEmitter.emit _ name args b) as [[v|e] b1].
Qed.

Lemma trigger_calls names args : ∀ b,
  let r := trigger (Names names) args b in
  ∃ new,
    calls (snd r) = calls b ++ new ∧
    Forall (fun c => is_by_once c ∨
                     ∃ name, name ∈ names ∧ by_whom c = ByEmit name) new ∧
    List.filter by_emit new `prefix_of` deliveries names args b ∧
    match fst r with
    | Normal v => v = VBus ∧ List.filter by_emit new = deliveries names args b
    | Throw e =>
        (∃ h k t a, behave h k t a = Throw e) ∨
        (e = EventEmitter.unhandled args ∧
         ∃ k, names !! k = Some "error" ∧
              _events (exec (trigger (Names (take k names)) args) b)
                !! "error" = None)
    end.
Proof.
  induction names as [|name rest IH]; intros b r; subst r.
  - exists []. simpl. by rewrite app_nil_r.
  - rewrite trigger_cons. simpl deliveries. unfold exec at 1 2.
    destruct (emit_calls name args b)
      as (new & done & rest' & E & Hreg & HF & Hall & _ & Hr).
    destruct (EventEmitter.emit _ name args b) as [[v|e] b1] eqn:Eem;
      simpl in *.
    + subst rest'. rewrite app_nil_r in Hreg.
      destruct (IH b1) as (new1 & E1 & Hall1 & Hpre1 & Hr1).
      exists (new ++ new1). rewrite E1, E, <-app_assoc. split; [done|].
      split; [|split].
      * apply Forall_app. split.
        -- eapply Forall_impl; [exact Hall|]. intros c [?|?]; [by left|].
           right. exists name. split; [left|done].
        -- eapply Forall_impl; [exact Hall1|].
           intros c [?|(nm & ? & ?)]; [by left|].
           right. exists nm. split; [by right|done].
      * rewrite List.filter_app, HF, Hreg. by apply prefix_app.
      * destruct (trigger (Names rest) args b1) as [[v'|e] b2] eqn:Etr;
          simpl in *.
        -- destruct Hr1 as [-> Hd]. split; [done|].
           by rewrite List.filter_app, HF, Hd, Hreg.
        -- destruct Hr1 as [?|(-> & k & Hk & Hnone)]; [by left|].
           right. split; [done|]. exists (S k). split; [done|].
           simpl take. unfold exec in *. by rewrite trigger_cons, Eem.
    + exists new. split; [done|]. split; [|split].
      * eapply Forall_impl; [exact Hall|]. intros c [?|?]; [by left|].
        right. exists name. split; [left|done].
      * rewrite HF, Hreg. unfold delivery. rewrite List.map_app, <-app_assoc.
        by apply prefix_app_r.
      * destruct Hr as [?|(-> & -> & Hnone)]; [by left|].
        right. split; [done|]. exists O. by split.
Qed.

(** [invokes] describes the loop of [emit] over the listeners. *)
Lemma invokes_for_of who args ls : ∀ b c b',
  invokes who args ls b c b' ↔
  for_of ls (fun l => apply who l VBus args) b = (c, b').
Proof.
  induction ls as [|l ls IH]; intros b c b'.
  - split.
    + intros H. by inversion H.
    + intros [= <- <-]. constructor.
  - cbn [for_of]. rewrite bind_unfold. split.
    + intros H. inversion H as [|? ? ? v b1 ? ? Ha Hrest|? ? ? e ? Ha]; subst.
      * rewrite Ha. by apply IH.
      * by rewrite Ha.
    + destruct (apply who l VBus args b) as [[v|e] b1] eqn:Ea.
      * intros H. eapply invokes_returns; [exact Ea|]. by apply IH.
      * intros [= <- <-]. by apply invokes_throws.
Qed.

(** [delivers] describes [trigger], outcome and bus. *)
Lemma delivers_trigger args names : ∀ b c b',
  delivers args names b c b' ↔ trigger (Names names) args b = (c, b').
Proof.
  induction names as [|name names IH]; intros b c b'.
  - split.
    + intros H. by inversion H.
    + intros [= <- <-]. constructor.
  - rewrite trigger_cons. unfold EventEmitter.emit. rewrite bind_unfold.
    cbn [get].
    destruct (_events b !! name) as [ls|] eqn:Els.
    + assert (registered b name = ls) as Hreg
        by (unfold registered; by rewrite Els).
      rewrite bind_unfold. split.
      * intros H.
        inversion H as [|? ? ? b1 ? ? Herr Hin Hrest|? ? ? e ? Hin|? ? Hnone];
          subst.
        -- apply invokes_for_of in Hin. rewrite Hin. by apply IH.
        -- apply invokes_for_of in Hin. by rewrite Hin.
        -- congruence.
      * destruct (for_of ls _ b) as [[[]|e] b1] eqn:Ef.
        -- intros H. apply (delivers_name args name names b b1).
           ++ intros ->. congruence.
           ++ rewrite Hreg. by apply invokes_for_of.
           ++ by apply IH.
        -- intros [= <- <-]. apply delivers_listener_throws.
           rewrite Hreg. by apply invokes_for_of.
    + assert (registered b name = []) as Hreg
        by (unfold registered; by rewrite Els).
      split.
      * intros H.
        inversion H as [|? ? ? b1 ? ? Herr Hin Hrest|? ? ? e ? Hin|? ? Hnone];
          subst.
        -- rewrite Hreg in Hin. inversion Hin; subst.
           destruct (String.eqb_spec name "error") as [->|_];
             [by destruct Herr|].
           by apply IH.
        -- rewrite Hreg in Hin. inversion Hin.
        -- reflexivity.
      * destruct (String.eqb_spec name "error") as [->|Hne].
        -- intros [= <- <-]. by apply delivers_unhandled.
        -- intros H. apply (delivers_name args name names b b).
           ++ done.
           ++ rewrite Hreg. constructor.
           ++ by apply IH.
Qed.

(** Where only the caller's own functions are registered, firing
    changes no list and records the calls of [emit] alone. *)
Lemma for_of_users who args ls : ∀ b,
  Forall (fun l => ∃ k, l = User k) ls →
  let r := for_of ls (fun l => apply who l VBus args) b in
  _events (snd r) = _events b ∧
  ∃ done rest,
    ls = done ++ rest ∧
    calls (snd r)
    = calls b ++ List.map (fun l => Call who l VBus args) done ∧
    ∀ u, fst r = Normal u → rest = [].
Proof.
  induction ls as [|l ls IH]; intros b Hls r; subst r.
  - split; [done|]. exists [], []. simpl. by rewrite app_nil_r.
  - apply Forall_cons in Hls as [[k ->] Hls].
    cbn [for_of]. rewrite bind_unfold, apply_unfold. cbv zeta.
    set (b0 := with_call _ b).
    destruct (behave (calls b0) k VBus args) as [v|e].
    + destruct (IH b0 Hls) as (He & done & rest & -> & Hc & Hr).
      split; [by rewrite He|].
      exists (User k :: done), rest. split; [done|]. split; [|done].
      rewrite Hc. unfold b0. cbn [with_call calls List.map].
      by rewrite <-app_assoc.
    + split; [done|]. exists [User k], ls. by repeat split.
Qed.

Lemma emit_users name args b :
  Forall (fun l => ∃ k, l = User k) (registered b name) →
  let r := EventEmitter.emit (apply (ByEmit name)) name args b in
  _events (snd r) = _events b ∧
  ∃ done rest,
    registered b name = done ++ rest ∧
    calls (snd r) = calls b ++ delivery name args done ∧
    ∀ u, fst r = Normal u → rest = [].
Proof.
  intros Hls r. subst r. unfold EventEmitter.emit. rewrite bind_unfold.
  cbn [get]. unfold registered in *.
  destruct (_events b !! name) as [ls|]; simpl default in *.
  - rewrite bind_unfold.
    destruct (for_of_users (ByEmit name) args ls b Hls)
      as (He & done & rest & Hl & Hc & Hr).
    destruct (for_of ls _ b) as [[u|e] b1]; cbn [fst snd] in *.
    + split; [done|]. exists done, rest. repeat split; try done.
      intros _ _. by apply (Hr u).
    + split; [done|]. exists done, rest. by repeat split.
  - split; [by destruct (String.eqb name "error")|].
    exists [], []. split; [done|]. split; [|done].
    destruct (String.eqb name "error"); simpl; by rewrite app_nil_r.
Qed.

Lemma trigger_users names args : ∀ b,
  (∀ name l, l ∈ registered b name → ∃ k, l = User k) →
  let r := trigger (Names names) args b in
  let owed :=
    List.flat_map (fun name => delivery name args (registered b name))
      names in
  ∃ new,
    calls (snd r) = calls b ++ new ∧
    new `prefix_of` owed ∧
    ∀ v, fst r = Normal v → new = owed.
Proof.
  induction names as [|name names IH]; intros b Hb r owed; subst r owed.
  - exists []. simpl. by rewrite app_nil_r.
  - rewrite trigger_cons. cbn [List.flat_map].
    assert (Forall (fun l => ∃ k, l = User k) (registered b name)) as Hls
      by (apply Forall_forall; intros l Hl; by apply (Hb name)).
    destruct (emit_users name args b Hls)
      as (He & done & rest & Hreg & Hc & Hr).
    destruct (EventEmitter.emit _ name args b) as [[u|e] b1];
      cbn [fst snd] in *.
    + rewrite (Hr u eq_refl), app_nil_r in Hreg. subst done.
      assert (∀ nm, registered b1 nm = registered b nm) as Hsame
        by (intros nm; unfold registered; by rewrite He).
      destruct (IH b1) as (new & Hc1 & Hpre & Hall).
      { intros nm l. rewrite Hsame. apply Hb. }
      assert (List.flat_map
                (fun nm => delivery nm args (registered b1 nm)) names
              = List.flat_map
                  (fun nm => delivery nm args (registered b nm)) names)
        as Hflat.
      { apply List.flat_map_ext. intros nm. by rewrite Hsame. }
      rewrite Hflat in Hpre, Hall.
      exists (delivery name args (registered b name) ++ new).
      split; [by rewrite Hc1, Hc, <-app_assoc|].
      split; [by apply prefix_app|].
      intros v Hv. f_equal. by apply (Hall v).
    + exists (delivery name args done). split; [done|]. split; [|done].
      rewrite Hreg. unfold delivery. rewrite List.map_app, <-app_assoc.
      by apply prefix_app_r.
Qed.

End Facts.



(** ** The closures of [once] fire once *)

Lemma plain_mono bound bound' f :
  (bound ≤ bound')%nat → plain bound f → plain bound' f.
Proof. destruct f as [|? ? [|] ?]; simpl; [done|lia|done]. Qed.

Lemma fired_with_call id c b :
  fired id (with_call c b) = (fired id b + if by_once id c then 1 else 0)%nat.
Proof.
  unfold fired, with_call. simpl. rewrite List.filter_app, length_app. simpl.
  by destruct (by_once id c).
Qed.

Lemma sound_new_bus : sound new_bus.
Proof.
  split; simpl.
  - intros name ls H. by rewrite lookup_empty in H.
  - done.
  - intros id H. lia.
  - intros id. unfold fired. simpl. lia.
Qed.

(** Changing the table alone keeps a bus sound, if the table stays plain. *)
Lemma sound_with_events f b :
  sound b →
  (∀ name ls, f (_events b) !! name = Some ls → Forall (plain (next b)) ls) →
  sound (with_events f b).
Proof. intros [H1 H2 H3 H4] Hf. by split. Qed.

Lemma keeps_ret {A : Type} k (a : A) : keeps k (mret a).
Proof. intros b Hs Hk. by split. Qed.

Lemma keeps_bind {A B : Type} k (m : M A) (f : A -> M B) :
  keeps k m → (∀ a, keeps k (f a)) → keeps k (m ≫= f).
Proof.
  intros Hm Hf b Hs Hk. rewrite bind_unfold.
  destruct (Hm b Hs Hk) as [Hs1 Hn1].
  destruct (m b) as [[a|e] b1]; simpl in *; [|done].
  destruct (Hf a b1 Hs1 ltac:(lia)) as [Hs2 Hn2]. split; [done|lia].
Qed.

Lemma keeps_attempt {A : Type} k (m : M A) : keeps k m → keeps k (attempt m).
Proof.
  intros Hm b Hs Hk. unfold attempt. specialize (Hm b Hs Hk).
  by destruct (m b).
Qed.

Lemma keeps_for_of {A B : Type} k (l : list A) (body : A -> M B) :
  (∀ x, In x l → keeps k (body x)) → keeps k (for_of l body).
Proof.
  induction l as [|x l IH]; intros H; simpl.
  - apply keeps_ret.
  - apply keeps_bind; [apply H; by left|].
    intros _. apply IH. intros y Hy. apply H. by right.
Qed.

Lemma keeps_each {A : Type} k (l : list A) (iteratee : A -> M value) :
  (∀ x, In x l → keeps k (iteratee x)) → keeps k (Lodash.each l iteratee).
Proof.
  induction l as [|x l IH]; intros H; simpl.
  - apply keeps_ret.
  - apply keeps_bind; [apply H; by left|].
    assert (keeps k (Lodash.each l iteratee)) as Hl
      by (apply IH; intros y Hy; apply H; by right).
    intros [| [|] | | | | | | | |]; try exact Hl. apply keeps_ret.
Qed.

Lemma keeps_map_ {A B : Type} k (l : list A) (iteratee : A -> M B) :
  (∀ x, In x l → keeps k (iteratee x)) → keeps k (Lodash.map_ l iteratee).
Proof.
  induction l as [|x l IH]; intros H; simpl.
  - apply keeps_ret.
  - apply keeps_bind; [apply H; by left|]. intros y.
    apply keeps_bind; [apply IH; intros z Hz; apply H; by right|].
    intros ys. apply keeps_ret.
Qed.

Section Soundness.
Context {host : Host}.

Lemma keeps_on k type listener rest :
  plain k listener →
  keeps k (EventEmitter.on (VStr type :: VFun listener :: rest)).
Proof.
  intros Hl b Hs Hk. split; [|done].
  assert (plain (next b) listener) as Hl' by (by eapply plain_mono).
  unfold EventEmitter.on. rewrite bind_unfold. simpl.
  apply sound_with_events; [done|].
  intros name ls. destruct (decide (type = name)) as [->|Hne].
  - rewrite lookup_insert_eq. intros [= <-].
    apply Forall_app. split; [|by constructor].
    destruct (_events b !! name) as [ls|] eqn:E; simpl; [|done].
    by apply (sound_table b Hs name).
  - rewrite lookup_insert_ne by done. apply (sound_table b Hs).
Qed.

Lemma keeps_removeAllListeners k arguments :
  keeps k (EventEmitter.removeAllListeners arguments).
Proof.
  intros b Hs Hk. split; [|by destruct arguments].
  destruct arguments as [|type rest]; simpl;
    (apply sound_with_events; [done|]); intros name ls.
  - by rewrite lookup_empty.
  - intros H. apply lookup_delete_Some in H as [_ H].
    by apply (sound_table b Hs name).
Qed.

Lemma keeps_off k nameOrNames listener : keeps k (off nameOrNames listener).
Proof.
  destruct nameOrNames as [names|]; unfold off.
  - apply keeps_bind; [|intros; apply keeps_ret].
    apply keeps_each. intros name _.
    destruct listener; apply keeps_removeAllListeners.
  - destruct listener; apply keeps_removeAllListeners.
Qed.

(** Applying a registered function: the one step where a closure of
    [once] may apply its callback, which it does only while its [n] is
    2, and [n] is 1 at most from then on. *)
Lemma keeps_apply k who f this args :
  plain k f → (∀ id, who ≠ ByOnce id) → keeps k (apply who f this args).
Proof.
  intros Hf Hwho b Hs Hk.
  assert (∀ id c0, (∀ i, by_whom c0 ≠ ByOnce i) →
            fired id (with_call c0 b) = fired id b) as Hlog.
  { intros id c0 Hc0. rewrite fired_with_call. unfold by_once.
    destruct (by_whom c0) eqn:E; try lia. by destruct (Hc0 id0). }
  assert (sound (with_call (Call who f this args) b)) as Hs0.
  { destruct Hs as [H1 H2 H3 H4]. split; simpl; try done.
    - intros id Hid. rewrite Hlog by done. by apply H2.
    - intros id Hid. destruct (H3 id Hid) as (c & ? & ? & ?).
      exists c. rewrite Hlog by done. done.
    - intros id. rewrite Hlog by done. apply H4. }
  rewrite apply_unfold. cbv zeta.
  set (b0 := with_call (Call who f this args) b) in *.
  assert (next b0 = next b) as Hn0 by done.
  destruct f as [u|id name [u|] arguments]; simpl in Hf; [| |done].
  - by destruct (behave _ u this args).
  - rewrite before_apply_unfold. cbv zeta.
    destruct (sound_cell b0 Hs0 id ltac:(lia)) as (c & Hc & Hle & Hz).
    rewrite Hc. simpl default.
    destruct (0 <? n c - 1) eqn:Hpos.
    + apply Z.ltb_lt in Hpos. assert (n c = 2) as Hn2 by lia.
      set (b1 := with_cells _ b0).
      rewrite bind_unfold.
      destruct (off_calls (Some name)
                  (Some (Wrapper id name (User u) arguments)) b1)
        as (b2 & Eoff & Hc2 & Hce2 & Hn2').
      assert (sound b1) as Hs1.
      { destruct Hs0 as [H1 H2 H3 H4]. split; simpl; try done.
        intros id' Hid'. destruct (decide (id = id')) as [<-|Hne].
        - rewrite lookup_insert_eq. eexists. split; [done|]. simpl.
          split; [lia|]. intros ?. by apply Hz.
        - rewrite lookup_insert_ne by done. by apply H3. }
      assert (sound b2) as Hs2.
      { pose proof (keeps_off k (Some name)
          (Some (Wrapper id name (User u) arguments)) b1 Hs1) as H.
        rewrite Eoff in H. apply H. simpl. lia. }
      rewrite Eoff. rewrite apply_unfold. cbv zeta.
      set (b3 := with_call _ b2).
      assert (∀ id', fired id' b3 =
                (fired id' b0 + if Nat.eqb id' id then 1 else 0)%nat) as Hf3.
      { intros id'. unfold b3. rewrite fired_with_call.
        unfold fired. rewrite Hc2. simpl. done. }
      assert (cells b3 !! id = Some (Cell (n c - 1) (result c))) as Hc3.
      { unfold b3. simpl. rewrite Hce2. simpl. by rewrite lookup_insert_eq. }
      assert (∀ id', id' ≠ id → cells b3 !! id' = cells b0 !! id') as Hc3'.
      { intros id' Hne. unfold b3. simpl. rewrite Hce2. simpl.
        by rewrite lookup_insert_ne. }
      assert (next b3 = next b) as Hn3.
      { unfold b3. simpl. rewrite Hn2'. done. }
      assert (∀ name ls, _events b3 !! name = Some ls →
                Forall (plain (next b)) ls) as Ht3.
      { intros nm ls. unfold b3. simpl. intros H.
        assert (next b2 = next b) as <- by (by rewrite Hn2').
        by apply (sound_table b2 Hs2 nm). }
      assert (fired id b0 = O) as Hzero by (by apply Hz).
      assert (∀ r, sound (MkBus (_events b3)
                            (<[id := Cell (n c - 1) r]> (cells b3))
                            (next b3) (calls b3))) as Hfinal.
      { intros r. split; cbn [_events cells next calls].
        - intros nm ls H. rewrite Hn3. by apply (Ht3 nm).
        - intros id' Hid'. change (fired id' b3 = O). rewrite Hf3.
          rewrite Hn3 in Hid'.
          rewrite (sound_fresh b0 Hs0 id') by lia.
          destruct (Nat.eqb_spec id' id); [lia|done].
        - intros id' Hid'. change (∃ c0, <[id:=Cell (n c - 1) r]> (cells b3) !! id' = Some c0 ∧ n c0 ≤ 2 ∧ (n c0 = 2 → fired id' b3 = O)).
          destruct (decide (id = id')) as [<-|Hne].
          + rewrite lookup_insert_eq. eexists. split; [done|]. simpl. lia.
          + rewrite lookup_insert_ne by done. rewrite Hc3' by done.
            rewrite Hn3 in Hid'.
            destruct (sound_cell b0 Hs0 id' ltac:(lia)) as (c0 & ? & ? & ?).
            exists c0. rewrite Hf3.
            destruct (Nat.eqb_spec id' id); [done|].
            rewrite Nat.add_0_r. done.
        - intros id'. change (fired id' b3 ≤ 1)%nat. rewrite Hf3.
          pose proof (sound_once b0 Hs0 id').
          destruct (Nat.eqb_spec id' id) as [->|]; [rewrite Hzero|]; lia. }
      destruct (behave (calls b3) u VBus arguments) as [r|e];
        cbn [fst snd with_cells next].
      * rewrite Hc3. cbn [default n]. split; [apply Hfinal|lia].
      * split; [|lia].
        specialize (Hfinal (result c)).
        replace (<[id:=Cell (n c - 1) (result c)]> (cells b3)) with (cells b3)
          in Hfinal by (symmetry; by apply insert_id).
        by destruct b3.
    + apply Z.ltb_ge in Hpos. simpl. split; [|lia].
      destruct Hs0 as [H1 H2 H3 H4]. split; simpl; try done.
      intros id' Hid'. destruct (decide (id = id')) as [<-|Hne].
      * rewrite lookup_insert_eq. eexists. split; [done|]. simpl. lia.
      * rewrite lookup_insert_ne by done. by apply H3.
Qed.

Lemma keeps_emit k name args :
  keeps k (EventEmitter.emit (apply (ByEmit name)) name args).
Proof.
  intros b Hs Hk. unfold EventEmitter.emit. rewrite bind_unfold.
  cbn [get fst snd].
  destruct (_events b !! name) as [handler|] eqn:E.
  - pose proof (sound_table b Hs name handler E) as Hpl.
    apply (keeps_bind (next b)); [|intros; apply keeps_ret|done|done].
    apply keeps_for_of. intros l Hl. apply keeps_apply; [|done].
    rewrite Forall_forall in Hpl. apply Hpl. by apply list_elem_of_In.
  - by destruct (String.eqb name "error").
Qed.

Lemma keeps_trigger k nameOrNames args : keeps k (trigger nameOrNames args).
Proof.
  unfold trigger. apply keeps_bind; [|intros; apply keeps_ret].
  apply keeps_for_of. intros name _. apply keeps_emit.
Qed.

(** The listeners [triggerThen] collects: those of each name, in the
    order of the names; collecting changes nothing. *)
Lemma flatMap_listeners names b :
  flatMap names EventEmitter.listeners b
  = (Normal (List.flat_map (registered b) names), b).
Proof.
  unfold flatMap. rewrite bind_unfold.
  assert (Lodash.map_ names EventEmitter.listeners b
          = (Normal (List.map (registered b) names), b)) as ->.
  { induction names as [|name names IH]; simpl; [done|].
    rewrite !bind_unfold. simpl. rewrite bind_unfold, IH. done. }
  simpl. unfold Lodash.flatten. by rewrite flat_map_concat_map.
Qed.

Lemma keeps_triggerThen k nameOrNames args :
  keeps k (triggerThen nameOrNames args).
Proof.
  intros b Hs Hk. unfold triggerThen. rewrite bind_unfold, flatMap_listeners.
  apply (keeps_bind (next b)); [|intros; apply keeps_ret|done|done].
  apply keeps_map_. intros l Hl. apply keeps_attempt.
  apply keeps_apply; [|done].
  apply in_flat_map in Hl as (name & _ & Hl). unfold registered in Hl.
  destruct (_events b !! name) as [ls|] eqn:E; simpl in Hl; [|done].
  pose proof (sound_table b Hs name ls E) as Hpl.
  rewrite Forall_forall in Hpl. apply Hpl. by apply list_elem_of_In.
Qed.

Lemma keeps_Events_on k nameOrNames handler args :
  plain k handler → keeps k (on nameOrNames handler args).
Proof.
  intros Hh. unfold on. apply keeps_bind; [|intros; apply keeps_ret].
  apply keeps_for_of. intros name _. by apply keeps_on.
Qed.

(** [once] makes closure [next b], with [n] at 2 and nothing applied,
    and registers it. *)
Lemma once_unfold name callback context b :
  once name callback context b =
  on name
    (Wrapper (next b) name callback
       ([VStr name; VFun callback] ++
        match context with Some c => [c] | None => [] end))
    [default VUndefined context]
    (with_next (S (next b))
       (with_cells (insert (next b) (Cell 2 VUndefined)) b)).
Proof. reflexivity. Qed.

Lemma keeps_once k name callback context :
  keeps k (once name (User callback) context).
Proof.
  intros b Hs Hk. rewrite once_unfold.
  set (b1 := with_next _ _).
  assert (sound b1) as Hs1.
  { destruct Hs as [H1 H2 H3 H4]. split; simpl; try done.
    - intros nm ls H. eapply Forall_impl; [by apply (H1 nm)|].
      intros f. apply plain_mono. lia.
    - intros id Hid. apply H2. lia.
    - intros id Hid. destruct (decide (next b = id)) as [<-|Hne].
      + rewrite lookup_insert_eq. eexists. split; [done|]. simpl.
        split; [lia|]. intros _. by apply H2.
      + rewrite lookup_insert_ne by done. apply H3. lia. }
  destruct (keeps_Events_on (S (next b)) name
              (Wrapper (next b) name (User callback)
                 ([VStr name; VFun (User callback)] ++
                  match context with Some c => [c] | None => [] end))
              [default VUndefined context] ltac:(simpl; lia) b1 Hs1
              ltac:(done)) as [Hs2 Hn2].
  split; [done|]. assert (next b1 = S (next b)) as Hb1 by done. lia.
Qed.

Lemma step_sound o b :
  sound b → sound (step o b) ∧ (next b ≤ next (step o b))%nat.
Proof.
  intros Hs. destruct o; unfold step, exec.
  - by apply (keeps_Events_on (next b)).
  - by apply (keeps_off (next b)).
  - by apply (keeps_once (next b)).
  - by apply (keeps_trigger (next b)).
  - by apply (keeps_triggerThen (next b)).
Qed.

Lemma run_sound p : ∀ b, sound b → sound (run p b).
Proof.
  induction p as [|o p IH]; intros b Hs; [done|].
  apply IH. by apply step_sound.
Qed.

(** What [on] leaves in the table: the handler once more at the end of
    the list of each name, as often as the name occurs. *)
Lemma registered_on_loop handler rest names : ∀ b name,
  registered
    (snd (for_of names (fun nm =>
            EventEmitter.on (VStr nm :: VFun handler :: rest)) b)) name
  = registered b name ++
    List.repeat handler (length (List.filter (String.eqb name) names)).
Proof.
  induction names as [|nm names IH]; intros b name.
  - simpl. by rewrite app_nil_r.
  - cbn [for_of List.filter]. rewrite bind_unfold.
    change (EventEmitter.on (VStr nm :: VFun handler :: rest) b) with
      (Normal VBus,
       with_events (fun events =>
         <[nm := default [] (events !! nm) ++ [handler]]> events) b).
    cbn iota. rewrite IH. unfold registered.
    cbn [with_events _events].
    destruct (String.eqb_spec name nm) as [->|Hne].
    + rewrite lookup_insert_eq. simpl. by rewrite <-app_assoc.
    + rewrite lookup_insert_ne by done. done.
Qed.

Lemma registered_on nameOrNames handler args b name :
  registered (snd (on nameOrNames handler args b)) name
  = registered b name ++
    List.repeat handler
      (length (List.filter (String.eqb name) (Lodash.words nameOrNames))).
Proof.
  unfold on. rewrite bind_unfold.
  pose proof (registered_on_loop handler args (Lodash.words nameOrNames)
                b name) as H.
  by destruct (for_of _ _ b) as [[u|e] b1].
Qed.

End Soundness.



(** ** A callback given to [once] alone is called once *)

Lemma preserves_ret {A : Type} I (a : A) : preserves I (mret a).
Proof. by intros b H. Qed.

Lemma preserves_bind {A B : Type} I (m : M A) (f : A -> M B) :
  preserves I m → (∀ a, preserves I (f a)) → preserves I (m ≫= f).
Proof.
  intros Hm Hf b H. rewrite bind_unfold. specialize (Hm b H).
  destruct (m b) as [[a|e] b1]; simpl in *; [|done]. by apply Hf.
Qed.

Lemma preserves_attempt {A : Type} I (m : M A) :
  preserves I m → preserves I (attempt m).
Proof.
  intros Hm b H. unfold attempt. specialize (Hm b H). by destruct (m b).
Qed.

Lemma preserves_for_of {A B : Type} I (l : list A) (body : A -> M B) :
  (∀ x, In x l → preserves I (body x)) → preserves I (for_of l body).
Proof.
  induction l as [|x l IH]; intros H; simpl.
  - apply preserves_ret.
  - apply preserves_bind; [apply H; by left|].
    intros _. apply IH. intros y Hy. apply H. by right.
Qed.

Lemma preserves_each {A : Type} I (l : list A) (iteratee : A -> M value) :
  (∀ x, In x l → preserves I (iteratee x)) →
  preserves I (Lodash.each l iteratee).
Proof.
  induction l as [|x l IH]; intros H; simpl.
  - apply preserves_ret.
  - apply preserves_bind; [apply H; by left|].
    assert (preserves I (Lodash.each l iteratee)) as Hl
      by (apply IH; intros y Hy; apply H; by right).
    intros [| [|] | | | | | | | |]; try exact Hl. apply preserves_ret.
Qed.

Lemma preserves_map_ {A B : Type} I (l : list A) (iteratee : A -> M B) :
  (∀ x, In x l → preserves I (iteratee x)) →
  preserves I (Lodash.map_ l iteratee).
Proof.
  induction l as [|x l IH]; intros H; simpl.
  - apply preserves_ret.
  - apply preserves_bind; [apply H; by left|]. intros y.
    apply preserves_bind; [apply IH; intros z Hz; apply H; by right|].
    intros ys. apply preserves_ret.
Qed.

Lemma owned_new_bus cb id : owned cb id new_bus.
Proof.
  split; [|constructor]. intros name ls H. simpl in H.
  by rewrite lookup_empty in H.
Qed.

Lemma owned_with_call cb id c b :
  owned cb id b →
  (callee c = User cb → by_whom c = ByOnce id) →
  owned cb id (with_call c b).
Proof.
  intros [Ht Hc] H. split; [done|]. simpl. apply Forall_app. split; [done|].
  by constructor.
Qed.

Lemma filter_length_le {A : Type} (P Q : A -> bool) (l : list A) :
  Forall (fun x => P x = true → Q x = true) l →
  (length (List.filter P l) ≤ length (List.filter Q l))%nat.
Proof.
  induction 1 as [|x l Hx _ IH]; simpl; [done|].
  destruct (P x) eqn:EP.
  - rewrite (Hx eq_refl). simpl. lia.
  - destruct (Q x); simpl; lia.
Qed.

(** What closure [id] alone applies is applied no more often than the
    closure fires. *)
Lemma applied_le_fired cb id b :
  owned cb id b → (applied cb b ≤ fired id b)%nat.
Proof.
  intros [_ Hc]. unfold applied, fired. apply filter_length_le.
  eapply Forall_impl; [exact Hc|]. intros c H Hu.
  unfold by_once. rewrite H; [by rewrite Nat.eqb_refl|].
  destruct (callee c) as [k|]; [|done]. simpl in Hu.
  by apply Nat.eqb_eq in Hu as ->.
Qed.

Section Ownership.
Context {host : Host}.
Context (cb id : nat).

Lemma owns_on type listener rest :
  foreign cb id listener →
  preserves (owned cb id) (EventEmitter.on (VStr type :: VFun listener :: rest)).
Proof.
  intros Hl b [Ht Hc]. split; [|done]. intros name ls.
  unfold EventEmitter.on. rewrite bind_unfold. cbn [modify fst snd mret M_ret].
  cbn [with_events _events].
  destruct (decide (type = name)) as [->|Hne].
  - rewrite lookup_insert_eq. intros [= <-].
    apply Forall_app. split; [|by constructor].
    destruct (_events b !! name) as [ls|] eqn:E; simpl; [|done].
    by apply (Ht name).
  - rewrite lookup_insert_ne by done. apply Ht.
Qed.

Lemma owns_removeAllListeners arguments :
  preserves (owned cb id) (EventEmitter.removeAllListeners arguments).
Proof.
  intros b [Ht Hc]. split; [|by destruct arguments].
  destruct arguments as [|type rest]; intros name ls; simpl.
  - by rewrite lookup_empty.
  - intros H. apply lookup_delete_Some in H as [_ H]. by apply (Ht name).
Qed.

Lemma owns_off nameOrNames listener :
  preserves (owned cb id) (off nameOrNames listener).
Proof.
  destruct nameOrNames as [names|]; unfold off.
  - apply preserves_bind; [|intros; apply preserves_ret].
    apply preserves_each. intros name _.
    destruct listener; apply owns_removeAllListeners.
  - destruct listener; apply owns_removeAllListeners.
Qed.

Lemma owns_apply who f this args :
  foreign cb id f → preserves (owned cb id) (apply who f this args).
Proof.
  intros Hf b Ho. rewrite apply_unfold. cbv zeta.
  assert (owned cb id (with_call (Call who f this args) b)) as Ho0.
  { apply owned_with_call; [done|]. simpl. intros ->. by simpl in Hf. }
  set (b0 := with_call (Call who f this args) b) in *.
  destruct f as [u|i name [u|] arguments]; simpl in Hf; [| |done].
  - by destruct (behave _ u this args).
  - rewrite before_apply_unfold. cbv zeta.
    destruct (0 <? _); [|done].
    set (b1 := with_cells _ b0).
    assert (owned cb id b1) as Ho1 by done.
    rewrite bind_unfold.
    pose proof (owns_off (Some name)
                  (Some (Wrapper i name (User u) arguments)) b1 Ho1) as Ho2.
    destruct (off_calls (Some name)
                (Some (Wrapper i name (User u) arguments)) b1)
      as (b2 & Eoff & _).
    rewrite Eoff in Ho2 |- *. simpl in Ho2.
    rewrite apply_unfold. cbv zeta.
    assert (owned cb id (with_call (Call (ByOnce i) (User u) VBus arguments) b2))
      as Ho3.
    { apply owned_with_call; [done|]. simpl. intros [= ->]. by rewrite Hf. }
    by destruct (behave _ u VBus arguments).
Qed.

Lemma owns_emit name args :
  preserves (owned cb id) (EventEmitter.emit (apply (ByEmit name)) name args).
Proof.
  intros b Ho. unfold EventEmitter.emit. rewrite bind_unfold.
  cbn [get fst snd].
  destruct (_events b !! name) as [handler|] eqn:E.
  - pose proof (proj1 Ho name handler E) as Hfor.
    refine (preserves_bind (owned cb id) _ _ _ _ b Ho);
      [|intros; apply preserves_ret].
    apply preserves_for_of. intros l Hl. apply owns_apply.
    rewrite Forall_forall in Hfor. apply Hfor. by apply list_elem_of_In.
  - by destruct (String.eqb name "error").
Qed.

Lemma owns_trigger nameOrNames args :
  preserves (owned cb id) (trigger nameOrNames args).
Proof.
  unfold trigger. apply preserves_bind; [|intros; apply preserves_ret].
  apply preserves_for_of. intros name _. apply owns_emit.
Qed.

Lemma owns_triggerThen nameOrNames args :
  preserves (owned cb id) (triggerThen nameOrNames args).
Proof.
  intros b Ho. unfold triggerThen. rewrite bind_unfold, flatMap_listeners.
  unfold Promise.map.
  refine (preserves_bind (owned cb id) _ _ _ _ b Ho);
    [|intros; apply preserves_ret].
  apply preserves_map_. intros l Hl. apply preserves_attempt.
  apply owns_apply.
  apply in_flat_map in Hl as (name & _ & Hl). unfold registered in Hl.
  destruct (_events b !! name) as [ls|] eqn:E; simpl in Hl; [|done].
  pose proof (proj1 Ho name ls E) as Hfor.
  rewrite Forall_forall in Hfor. apply Hfor. by apply list_elem_of_In.
Qed.

Lemma owns_Events_on nameOrNames handler args :
  foreign cb id handler →
  preserves (owned cb id) (on nameOrNames handler args).
Proof.
  intros Hh. unfold on. apply preserves_bind; [|intros; apply preserves_ret].
  apply preserves_for_of. intros name _. by apply owns_on.
Qed.

Lemma owns_once name callback context b :
  callback ≠ cb ∨ next b = id →
  owned cb id b → owned cb id (snd (once name (User callback) context b)).
Proof.
  intros H Ho. rewrite once_unfold.
  apply owns_Events_on; [|done]. simpl. intros ->. by destruct H.
Qed.

Lemma owns_step o b :
  uses cb o = false → owned cb id b → owned cb id (step o b).
Proof.
  intros Hu Ho. destruct o; unfold step, exec; simpl in Hu.
  - apply owns_Events_on; [|done]. simpl. by apply Nat.eqb_neq.
  - by apply owns_off.
  - apply owns_once; [|done]. left. by apply Nat.eqb_neq.
  - by apply owns_trigger.
  - by apply owns_triggerThen.
Qed.

Lemma owns_run p : ∀ b,
  Forall (fun o => uses cb o = false) p →
  owned cb id b → owned cb id (run p b).
Proof.
  induction p as [|o p IH]; intros b Hp Ho; [done|].
  apply Forall_cons in Hp as [Hu Hp]. apply IH; [done|]. by apply owns_step.
Qed.

End Ownership.

(** ** The aggregate of [triggerThen] *)

Section Results.
Context {host : Host}.

Lemma arrival_of_index i c a :
  a ∈ Promise.arrival_of i c → Promise.index a = i.
Proof.
  unfold Promise.arrival_of.
  destruct c as [[]|]; try destruct (fate _) as [[]|];
    intros H; repeat (apply elem_of_cons in H as [->|H]); try done;
    by apply elem_of_nil in H.
Qed.

Lemma arrival_of_throw i c t e :
  Promise.Arrival t i (Throw e) ∈ Promise.arrival_of i c ↔
  fails c = Some (t, e).
Proof.
  unfold Promise.arrival_of, fails.
  destruct c as [[]|]; try destruct (fate _) as [[? []]|];
    rewrite ?list_elem_of_singleton, ?elem_of_nil; naive_solver.
Qed.

Lemma arrival_of_normal i c v :
  resolves c = Some v →
  ∃ t, Promise.arrival_of i c = [Promise.Arrival t i (Normal v)].
Proof.
  unfold Promise.arrival_of, resolves.
  destruct c as [[]|]; try destruct (fate _) as [[? []]|];
    intros [= <-]; eauto.
Qed.

Lemma elem_of_arrivals_from a results : ∀ k,
  a ∈ Promise.arrivals_from k results ↔
  ∃ j c, results !! j = Some c ∧ a ∈ Promise.arrival_of (k + j) c.
Proof.
  induction results as [|c results IH]; intros k; simpl.
  - rewrite elem_of_nil. naive_solver.
  - rewrite elem_of_app, IH. split.
    + intros [H|(j & c' & Hj & H)].
      * exists O, c. by rewrite Nat.add_0_r.
      * exists (S j), c'. by rewrite Nat.add_succ_r.
    + intros ([|j] & c' & Hj & H).
      * left. rewrite Nat.add_0_r in H. by injection Hj as ->.
      * right. exists j, c'. by rewrite Nat.add_succ_r in H.
Qed.

(** [in_order] rearranges and sorts. *)
Lemma enqueue_perm a q : Promise.enqueue a q ≡ₚ a :: q.
Proof.
  induction q as [|a' q IH]; simpl; [done|].
  destruct (_ <=? _)%nat; [done|]. rewrite IH. apply perm_swap.
Qed.

Lemma in_order_perm l : Promise.in_order l ≡ₚ l.
Proof.
  induction l as [|a l IH]; simpl; [done|].
  by rewrite enqueue_perm, IH.
Qed.

Lemma enqueue_sorted a q :
  Forall (fun a' => (Promise.index a ≤ Promise.index a')%nat) q →
  StronglySorted no_later q →
  StronglySorted no_later (Promise.enqueue a q).
Proof.
  intros Hidx Hq. induction Hq as [|a' q Hq IH Hall]; simpl.
  - repeat constructor.
  - apply Forall_cons in Hidx as [Ha' Hidx].
    destruct (Nat.leb_spec (Promise.turn a) (Promise.turn a')) as [Hle|Hgt].
    + constructor; [by constructor|].
      constructor.
      * unfold no_later. lia.
      * rewrite Forall_forall in Hall, Hidx. apply Forall_forall.
        intros x Hx. specialize (Hall x Hx). specialize (Hidx x Hx).
        unfold no_later in *. lia.
    + constructor; [by apply IH|].
      rewrite enqueue_perm. constructor; [|done].
      unfold no_later. lia.
Qed.

Lemma arrivals_from_index_ge results : ∀ k,
  Forall (fun a => (k ≤ Promise.index a)%nat)
    (Promise.arrivals_from k results).
Proof.
  intros k. apply Forall_forall. intros a Ha.
  apply elem_of_arrivals_from in Ha as (j & c & _ & Ha).
  apply arrival_of_index in Ha. lia.
Qed.

Lemma in_order_sorted results : ∀ k,
  StronglySorted no_later
    (Promise.in_order (Promise.arrivals_from k results)).
Proof.
  induction results as [|c results IH]; intros k; simpl; [constructor|].
  assert (∀ l,
    (∀ a, a ∈ l → Promise.index a = k) → (length l ≤ 1)%nat →
    StronglySorted no_later
      (Promise.in_order (l ++ Promise.arrivals_from (S k) results)))
    as Hins.
  { intros [|a [|a' l]] Hk Hlen; simpl in *; [apply IH| |lia].
    apply enqueue_sorted; [|apply IH].
    rewrite in_order_perm. eapply Forall_impl;
      [apply (arrivals_from_index_ge results (S k))|].
    intros a' Ha'. simpl in Ha'. rewrite (Hk a) by left. lia. }
  apply Hins.
  - intros a. apply arrival_of_index.
  - unfold Promise.arrival_of.
    destruct c as [[]|]; try destruct (fate _) as [[]|]; simpl; lia.
Qed.

(** Collecting: once a failure is in, nothing changes. *)
Lemma receive_failed q : ∀ s e,
  fold_left Promise.receive q (Promise.Collector s (Some e))
  = Promise.Collector s (Some e).
Proof. induction q as [|a q IH]; intros s e; simpl; [done|apply IH]. Qed.

(** The first failure to arrive is the outcome. *)
Lemma collect_first_failure pre a post e : ∀ s,
  Forall (fun a' => ∃ v, Promise.what a' = Normal v) pre →
  Promise.what a = Throw e →
  Promise.outcome
    (fold_left Promise.receive (pre ++ a :: post)
       (Promise.Collector s None))
  = Promise.Rejected e.
Proof.
  induction pre as [|a' pre IH]; intros s Hpre Ha; simpl.
  - unfold Promise.receive at 2. simpl. rewrite Ha, receive_failed. done.
  - apply Forall_cons in Hpre as [[v Hv] Hpre].
    unfold Promise.receive at 2. simpl. rewrite Hv. by apply IH.
Qed.

(** With successes only, each value lands in the slot of its call. *)
Lemma collect_successes q : ∀ s,
  Forall (fun a => ∃ v, Promise.what a = Normal v) q →
  fold_left Promise.receive q (Promise.Collector s None)
  = Promise.Collector (fold_left put q s) None.
Proof.
  induction q as [|a q IH]; intros s Hq; simpl; [done|].
  apply Forall_cons in Hq as [[v Hv] Hq].
  unfold Promise.receive at 2, put at 2. simpl. rewrite Hv. by apply IH.
Qed.

Lemma put_length q : ∀ s, length (fold_left put q s) = length s.
Proof.
  induction q as [|a q IH]; intros s; simpl; [done|].
  rewrite IH. unfold put. destruct (Promise.what a); [|done].
  apply length_insert.
Qed.

Lemma put_other q i : ∀ s,
  Forall (fun a => Promise.index a ≠ i) q →
  fold_left put q s !! i = s !! i.
Proof.
  induction q as [|a q IH]; intros s Hq; simpl; [done|].
  apply Forall_cons in Hq as [Ha Hq]. rewrite IH by done.
  unfold put. destruct (Promise.what a); [|done].
  by rewrite list_lookup_insert_ne.
Qed.

Lemma put_lookup q : ∀ s a v,
  NoDup (Promise.index <$> q) →
  a ∈ q → Promise.what a = Normal v →
  (Promise.index a < length s)%nat →
  fold_left put q s !! Promise.index a = Some (Some v).
Proof.
  induction q as [|a' q IH]; intros s a v Hnd Ha Hv Hlen; simpl.
  - by apply elem_of_nil in Ha.
  - rewrite fmap_cons in Hnd. apply NoDup_cons in Hnd as [Hnotin Hnd].
    apply elem_of_cons in Ha as [<-|Ha].
    + rewrite put_other.
      * unfold put. rewrite Hv. by apply list_lookup_insert_eq.
      * apply Forall_forall. intros x Hx Heq. apply Hnotin.
        rewrite <-Heq. by apply list_elem_of_fmap_2.
    + apply IH; try done. unfold put.
      destruct (Promise.what a'); [|done]. by rewrite length_insert.
Qed.

Lemma filled_Some vs : Promise.filled (Some <$> vs) = Some vs.
Proof.
  induction vs as [|v vs IH]; [done|].
  rewrite fmap_cons. cbn [Promise.filled]. by rewrite IH.
Qed.

Lemma arrivals_from_indices results vs : ∀ k,
  Forall2 (fun c v => resolves c = Some v) results vs →
  Promise.index <$> Promise.arrivals_from k results
  = seq k (length results).
Proof.
  intros k H. revert k.
  induction H as [|c v results vs Hc _ IH]; intros k; simpl; [done|].
  destruct (arrival_of_normal k c v Hc) as [t ->]. simpl. by rewrite IH.
Qed.

(** Every result succeeded: the aggregate is fulfilled with the values
    in the order of the calls, whatever the turns they arrived at. *)
Lemma settle_fulfilled results vs :
  Forall2 (fun c v => resolves c = Some v) results vs →
  Promise.settle results = Promise.Fulfilled vs.
Proof.
  intros H. unfold Promise.settle.
  set (q := Promise.in_order (Promise.arrivals_from O results)).
  assert (∀ a, a ∈ q →
            ∃ j c v, results !! j = Some c ∧ resolves c = Some v ∧
                     Promise.index a = j ∧ Promise.what a = Normal v)
    as Hq.
  { intros a Ha. unfold q in Ha. rewrite in_order_perm in Ha.
    apply elem_of_arrivals_from in Ha as (j & c & Hj & Ha).
    destruct (Forall2_lookup_l _ _ _ _ _ H Hj) as (v & _ & Hv).
    destruct (arrival_of_normal (O + j) c v Hv) as [t E].
    rewrite E in Ha. apply list_elem_of_singleton in Ha as ->.
    exists j, c, v. done. }
  rewrite collect_successes.
  2:{ apply Forall_forall. intros a Ha.
      destruct (Hq a Ha) as (j & c & v & _ & _ & _ & Hv). eauto. }
  assert (fold_left put q (replicate (length results) None) = Some <$> vs)
    as ->;
    [|unfold Promise.outcome; cbn [Promise.failed Promise.slots];
      by rewrite filled_Some].
  assert (NoDup (Promise.index <$> q)) as Hnd.
  { unfold q. rewrite in_order_perm.
    rewrite (arrivals_from_indices results vs O H). apply NoDup_seq. }
  pose proof (Forall2_length _ _ _ H) as Hlen.
  apply list_eq. intros j. rewrite list_lookup_fmap.
  destruct (vs !! j) as [v|] eqn:Ev; simpl.
  - destruct (Forall2_lookup_r _ _ _ _ _ H Ev) as (c & Hc & Hres).
    destruct (arrival_of_normal (O + j) c v Hres) as [t E].
    assert (Promise.Arrival t j (Normal v) ∈ q) as Hin.
    { unfold q. rewrite in_order_perm. apply elem_of_arrivals_from.
      exists j, c. split; [done|]. rewrite E. by left. }
    apply (put_lookup q _ (Promise.Arrival t j (Normal v)) v Hnd Hin);
      [done|].
    simpl. rewrite length_replicate. by apply lookup_lt_Some in Hc.
  - apply lookup_ge_None. rewrite put_length, length_replicate.
    apply lookup_ge_None in Ev. lia.
Qed.

(** Some result failed: the aggregate is rejected with the reason of
    the failure that happened first. *)
Lemma settle_rejected results :
  Exists (fun c => is_Some (fails c)) results →
  ∃ i c t e,
    results !! i = Some c ∧ fails c = Some (t, e) ∧
    Promise.settle results = Promise.Rejected e ∧
    ∀ j c' t' e', results !! j = Some c' → fails c' = Some (t', e') →
      (t < t')%nat ∨ (t = t' ∧ (i ≤ j)%nat).
Proof.
  intros Hex. unfold Promise.settle.
  set (q := Promise.in_order (Promise.arrivals_from O results)).
  pose proof (in_order_sorted results O) as Hsorted. fold q in Hsorted.
  assert (∀ j c t e, results !! j = Some c → fails c = Some (t, e) →
            Promise.Arrival t j (Throw e) ∈ q) as Hin.
  { intros j c t e Hj Hf. unfold q. rewrite in_order_perm.
    apply elem_of_arrivals_from. exists j, c. split; [done|].
    by apply arrival_of_throw. }
  assert (∀ a e, a ∈ q → Promise.what a = Throw e →
            ∃ c, results !! Promise.index a = Some c ∧
                 fails c = Some (Promise.turn a, e)) as Hout.
  { intros a e Ha Hw. unfold q in Ha. rewrite in_order_perm in Ha.
    apply elem_of_arrivals_from in Ha as (j & c & Hj & Ha).
    pose proof (arrival_of_index _ _ _ Ha) as Hi. simpl in Hi.
    exists c. rewrite Hi. split; [done|].
    apply (arrival_of_throw j). destruct a as [t i w]. simpl in *.
    by subst. }
  assert (Exists (fun a => ∃ e, Promise.what a = Throw e) q) as Hexq.
  { apply Exists_exists in Hex as (c & Hc & [[t e] Hf]).
    apply list_elem_of_lookup in Hc as [j Hj].
    apply Exists_exists. exists (Promise.Arrival t j (Throw e)).
    split; [by eapply Hin|]. by exists e. }
  assert (∃ pre a post e, q = pre ++ a :: post ∧
            Forall (fun a' => ∃ v, Promise.what a' = Normal v) pre ∧
            Promise.what a = Throw e) as (pre & a & post & e & Eq & Hpre & Ha).
  { clear -Hexq. induction q as [|a q IH]; [by apply Exists_nil in Hexq|].
    destruct (Promise.what a) as [v|e] eqn:Ew.
    - apply Exists_cons in Hexq as [[e He]|Hexq]; [congruence|].
      destruct (IH Hexq) as (pre & a0 & post & e & -> & Hpre & Ha0).
      exists (a :: pre), a0, post, e. repeat split; try done.
      constructor; eauto.
    - exists [], a, q, e. repeat split; done. }
  destruct (Hout a e) as (c & Hc & Hf); [rewrite Eq; set_solver|done|].
  exists (Promise.index a), c, (Promise.turn a), e.
  repeat split; try done.
  - rewrite Eq. by apply collect_first_failure.
  - intros j c' t' e' Hj Hf'.
    pose proof (Hin j c' t' e' Hj Hf') as Hjq. rewrite Eq in Hjq.
    apply elem_of_app in Hjq as [Hjq|Hjq].
    + rewrite Forall_forall in Hpre. destruct (Hpre _ Hjq) as [v Hv].
      done.
    + apply elem_of_cons in Hjq as [Hjq|Hjq].
      * rewrite <-Hjq. simpl. right. done.
      * rewrite Eq in Hsorted.
        apply StronglySorted_app in Hsorted as (_ & _ & Hs).
        apply StronglySorted_cons in Hs as [Hall _].
        rewrite Forall_forall in Hall. apply (Hall _ Hjq).
Qed.

End Results.


(** ** What the listeners of [triggerThen] answer *)

Section Answers.
Context {host : Host}.

Lemma by_map_once c : is_by_once c → by_map c = false.
Proof. intros [id H]. unfold by_map. by rewrite H. Qed.

Lemma answers_cons l ls args b :
  answers (l :: ls) args b =
  match apply ByMap l VBus args b with
  | (c, b1) =>
      match answers ls args b1 with
      | (Normal results, b2) => (Normal (c :: results), b2)
      | (Throw e, b2) => (Throw e, b2)
      end
  end.
Proof.
  unfold answers. cbn [Lodash.map_]. rewrite bind_unfold. unfold attempt at 1.
  destruct (apply ByMap l VBus args b) as [c b1]. rewrite bind_unfold.
  by destruct (Lodash.map_ ls _ b1) as [[r|e] b2].
Qed.

(** Every listener is applied, whatever the others did. *)
Lemma answers_calls args : ∀ ls b,
  ∃ results new,
    fst (answers ls args b) = Normal results ∧
    length results = length ls ∧
    calls (snd (answers ls args b)) = calls b ++ new ∧
    List.filter by_map new = List.map (fun l => Call ByMap l VBus args) ls.
Proof.
  induction ls as [|l ls IH]; intros b.
  - exists [], []. simpl. by rewrite app_nil_r.
  - rewrite answers_cons.
    destruct (apply_calls l ByMap VBus args b) as (inner & E & Hin & _ & _).
    destruct (apply ByMap l VBus args b) as [c b1]. simpl in E.
    destruct (IH b1) as (results & new & Er & Hlen & Ec & HF).
    destruct (answers ls args b1) as [r b2]. simpl in Er, Ec. subst r.
    exists (c :: results), (Call ByMap l VBus args :: inner ++ new).
    simpl. rewrite Hlen, Ec, E, <-!app_assoc. repeat split; try done.
    rewrite List.filter_app, (filter_by_once_nil by_map inner by_map_once Hin).
    simpl. by rewrite HF.
Qed.

Lemma triggerThen_unfold nameOrNames args b :
  triggerThen nameOrNames args b =
  (Normal (Promise.settle (told nameOrNames args b)),
   snd (answers (collected b nameOrNames) args b)).
Proof.
  unfold triggerThen, told. rewrite bind_unfold, flatMap_listeners.
  fold (collected b nameOrNames). unfold Promise.map.
  rewrite bind_unfold. fold (answers (collected b nameOrNames) args).
  destruct (answers_calls args (collected b nameOrNames) b)
    as (results & new & Er & _).
  destruct (answers _ args b) as [r b1]. simpl in *. by subst r.
Qed.

End Answers.

(** ** The claims *)

(** The statements about particular programs run them on [example_host],
    where every function but function 13 returns. *)
#[local] Existing Instance example_host.

(** C1 (the code at the failing input).  With [f] and [g] registered
    under ["a"], [off("a", f)] leaves nothing under ["a"]: [g] is removed
    too, where removing the registrations whose callback is [f] would
    leave [g] in place. *)
Theorem off_with_listener_clears_the_name :
  let b := run [On "a" 1; On "a" 2] new_bus in
  registered b "a" = [User 1; User 2] ∧
  registered (run [Off (Some "a") (Some 1%nat)] b) "a" = [] ∧
  without (User 1) (registered b "a") = [User 2].
Proof. vm_compute. done. Qed.

(** C3 (the code at the failing input).  With [g] and then a [once] of
    [f] registered under ["x"], [trigger(["x"])] calls both, and the
    wrapper of [f], when it fires, removes every listener of ["x"]: [g]
    does not stay. *)
Theorem once_wrapper_clears_the_name :
  let b := run [On "x" 1; Once "x" 2 None] new_bus in
  let w := Wrapper 0 "x" (User 2) [VStr "x"; VFun (User 2)] in
  registered b "x" = [User 1; w] ∧
  registered (run [Trigger (Names ["x"]) []] b) "x" = [] ∧
  without w (registered b "x") = [User 1].
Proof. vm_compute. done. Qed.

(** C4 (the code at the failing input).  After [once("x", f, ctx)],
    [trigger(["x"], 5, 6)] applies the wrapper to [5, 6], and the wrapper
    applies [f] to the arguments of the call of [once], which are
    ["x", f, ctx], with the bus as [this]: neither the arguments of
    [trigger] nor the context reach [f]. *)
Theorem once_callback_gets_the_arguments_of_once :
  let ctx := VObj 7 in
  let w := Wrapper 0 "x" (User 2) [VStr "x"; VFun (User 2); ctx] in
  calls (run [Once "x" 2 (Some ctx); Trigger (Names ["x"]) [VNum 5; VNum 6]]
           new_bus)
  = [Call (ByEmit "x") w VBus [VNum 5; VNum 6];
     Call (ByOnce 0) (User 2) VBus [VStr "x"; VFun (User 2); ctx]].
Proof. vm_compute. done. Qed.

(** C8 (the code at the failing input).  [on("fetched:collection", f)]
    registers [f] under ["fetched"] and under ["collection"], and nothing
    under ["fetched:collection"]: the string, which holds no white space,
    is cut at the colon. *)
Theorem name_is_cut_at_punctuation :
  let b := run [On "fetched:collection" 1] new_bus in
  Lodash.words "fetched:collection" = ["fetched"; "collection"] ∧
  registered b "fetched:collection" = [] ∧
  registered b "fetched" = [User 1] ∧
  registered b "collection" = [User 1].
Proof. vm_compute. done. Qed.

(** C9 (the code at the failing input).  With [f] alone registered under
    ["a"], [off("a", h)] for an [h] that is registered nowhere removes
    [f]: the call is not a no-op. *)
Theorem off_with_unregistered_listener_clears_the_name :
  let b := run [On "a" 1] new_bus in
  registered b "a" = [User 1] ∧
  registered (run [Off (Some "a") (Some 2%nat)] b) "a" = [] ∧
  without (User 2) (registered b "a") = [User 1].
Proof. vm_compute. done. Qed.

(** C7 as stated fails.  On a bus with no listener, [trigger(["error"])]
    throws and does not return the bus.  And with a listener that throws
    registered under ["x"] before a second listener, [trigger(["x"])]
    throws what the first threw: the second listener is not called and
    the bus is not returned. *)
Lemma trigger_does_not_always_return :
  (fst (trigger (Names ["error"]) [] new_bus)
   = Throw (VUnhandledError VUndefined) ∧
   fst (trigger (Names ["error"]) [] new_bus) ≠ Normal VBus) ∧
  let b := run [On "x" 13; On "x" 1] new_bus in
  registered b "x" = [User 13; User 1] ∧
  fst (trigger (Names ["x"]) [] b) = Throw (VError "boom") ∧
  calls (exec (trigger (Names ["x"]) []) b)
  = [Call (ByEmit "x") (User 13) VBus []].
Proof. split; [split; [reflexivity|discriminate]|by vm_compute]. Qed.

Section Claims.
Context {host : Host}.

(** C7, amended.  [trigger] takes the names of its iterable in order and,
    for each name, invokes the listeners registered under it when its
    turn comes, in the order of their registration, with the trailing
    arguments and the bus as [this].  It returns the bus unless a
    listener throws, or the turn of ["error"] comes while nothing is
    registered under it: then it throws at that point and invokes
    nothing further.  So [delivers], which says this rule by rule, holds
    of the outcome and the bus of [trigger] and of no other; and in the
    history of calls, those [emit] made are the first of the calls owed,
    in order, and all of them when [trigger] returns. *)
Theorem trigger_delivers_in_order nameOrNames args b :
  let names := iterate nameOrNames in
  let r := trigger nameOrNames args b in
  (∀ c b', delivers args names b c b' ↔ r = (c, b')) ∧
  ∃ new,
    calls (snd r) = calls b ++ new ∧
    List.filter by_emit new `prefix_of` deliveries names args b ∧
    ∀ v, fst r = Normal v →
         v = VBus ∧ List.filter by_emit new = deliveries names args b.
Proof.
  intros names r. subst r.
  change (trigger nameOrNames args) with (trigger (Names names) args).
  split; [intros c b'; apply delivers_trigger|].
  destruct (trigger_calls names args b) as (new & E & _ & Hpre & H).
  exists new. split; [done|]. split; [done|].
  intros v Hv. by rewrite Hv in H.
Qed.


(** Whatever the program did before [once] and does after it, the
    closure [once] made applies its callback at most once. *)
Lemma closure_fires_at_most_once (p q : list op) name callback context :
  let b := run p new_bus in
  (fired (next b) (run (Once name callback context :: q) b) ≤ 1)%nat.
Proof.
  intros b. apply sound_once.
  change (run (Once name callback context :: q) b)
    with (run q (step (Once name callback context) b)).
  apply run_sound, step_sound, run_sound, sound_new_bus.
Qed.

(** C2.  [once(name, callback, context)] registers one new closure under
    each of the names.  Whatever the program did before and whatever it
    does afterwards ([trigger], [triggerThen] or any other method, any
    number of times), that closure applies [callback] at most once; and
    when this call of [once] is the only one to hand [callback] to the
    bus, [callback] is applied at most once altogether. *)
Theorem once_applies_callback_at_most_once
    (p q : list op) name callback context :
  Forall (fun o => uses callback o = false) p →
  Forall (fun o => uses callback o = false) q →
  let b := run p new_bus in
  let w := Wrapper (next b) name (User callback)
             ([VStr name; VFun (User callback)] ++
              match context with Some c => [c] | None => [] end) in
  Forall (fun t => last (registered (step (Once name callback context) b) t)
                   = Some w) (Lodash.words name) ∧
  (fired (next b) (run (Once name callback context :: q) b) ≤ 1)%nat ∧
  (applied callback (run (Once name callback context :: q) b) ≤ 1)%nat.
Proof.
  intros Hp Hq b w.
  pose proof (closure_fires_at_most_once p q name callback context) as Hfired.
  cbv zeta in Hfired. fold b in Hfired.
  split; [|split; [done|]].
  - apply Forall_forall. intros t Ht. unfold step, exec.
    rewrite once_unfold. fold w. rewrite registered_on.
    apply list_elem_of_In in Ht.
    assert (In t (List.filter (String.eqb t) (Lodash.words name))) as Hin
      by (apply filter_In; split; [done|apply String.eqb_refl]).
    destruct (List.filter (String.eqb t) (Lodash.words name)) as [|t' l];
      [done|].
    cbn [length repeat]. rewrite repeat_cons, app_assoc. apply last_snoc.
  - etransitivity; [|exact Hfired].
    apply applied_le_fired.
    change (run (Once name callback context :: q) b)
      with (run q (step (Once name callback context) b)).
    apply owns_run; [done|]. unfold step, exec.
    apply owns_once; [by right|].
    apply owns_run; [done|]. apply owned_new_bus.
Qed.

(** C5.  When the results of all the listeners [triggerThen] applies
    succeed, a plain value with itself and a promise with the value it is
    fulfilled with, the aggregate is fulfilled with these values in the
    order of the calls, and the calls are those of the listeners of each
    name in the order of their registration, the names from left to
    right; the turns at which the promises were fulfilled play no part. *)
Theorem triggerThen_fulfilled_in_call_order nameOrNames args b vs :
  Forall2 (fun c v => resolves c = Some v) (told nameOrNames args b) vs →
  fst (triggerThen nameOrNames args b) = Normal (Promise.Fulfilled vs) ∧
  length vs = length (collected b nameOrNames) ∧
  ∃ new,
    calls (exec (triggerThen nameOrNames args) b) = calls b ++ new ∧
    List.filter by_map new
    = List.map (fun l => Call ByMap l VBus args)
        (List.flat_map (registered b) (Lodash.words nameOrNames)).
Proof.
  intros H. unfold exec. rewrite triggerThen_unfold. cbn [fst snd].
  rewrite (settle_fulfilled _ _ H). split; [done|].
  destruct (answers_calls args (collected b nameOrNames) b)
    as (results & new & Er & Hlen & Ec & HF).
  split.
  - rewrite <-(Forall2_length _ _ _ H). unfold told. by rewrite Er.
  - by exists new.
Qed.


End Claims.

(** ** The claims at work *)

(** A listener of ["x"], then [once("x", f)], then two [trigger]s and a
    [triggerThen] for ["x"]. *)
Lemma once_applies_callback_at_most_once_witness :
  let p := [On "x" 2] in
  let q := [Trigger (Names ["x"]) [VNum 5]; Trigger (Names ["x"]) [];
            TriggerThen "x" []] in
  Forall (fun o => uses 1 o = false) p ∧
  Forall (fun o => uses 1 o = false) q ∧
  let b := run p new_bus in
  Forall (fun t => last (registered (step (Once "x" 1 None) b) t)
                   = Some (Wrapper (next b) "x" (User 1)
                             [VStr "x"; VFun (User 1)]))
    (Lodash.words "x") ∧
  (fired (next b) (run (Once "x" 1 None :: q) b) ≤ 1)%nat ∧
  (applied 1 (run (Once "x" 1 None :: q) b) ≤ 1)%nat.
Proof.
  intros p q.
  assert (Forall (fun o => uses 1 o = false) p) as Hp
    by (repeat constructor).
  assert (Forall (fun o => uses 1 o = false) q) as Hq
    by (repeat constructor).
  split; [exact Hp|]. split; [exact Hq|].
  exact (once_applies_callback_at_most_once p q "x" 1%nat None Hp Hq).
Defined.

(** [triggerThen("e", 9)] with a listener that returns 1 and a listener
    that returns a promise fulfilled, three turns later, with 2. *)
Lemma triggerThen_fulfilled_in_call_order_witness :
  let b := run [On "e" 1; On "e" 2] new_bus in
  Forall2 (fun c v => resolves c = Some v)
    (told "e" [VNum 9] b) [VNum 1; VNum 2] ∧
  (fst (triggerThen "e" [VNum 9] b)
   = Normal (Promise.Fulfilled [VNum 1; VNum 2]) ∧
   length [VNum 1; VNum 2] = length (collected b "e") ∧
   ∃ new,
     calls (exec (triggerThen "e" [VNum 9]) b) = calls b ++ new ∧
     List.filter by_map new
     = List.map (fun l => Call ByMap l VBus [VNum 9])
         (List.flat_map (registered b) (Lodash.words "e"))).
Proof.
  intros b.
  assert (Forall2 (fun c v => resolves c = Some v)
            (told "e" [VNum 9] b) [VNum 1; VNum 2]) as H
    by (vm_compute; repeat constructor).
  split; [exact H|].
  exact (triggerThen_fulfilled_in_call_order "e" [VNum 9] b _ H).
Defined.


(** [trigger(["y", "x", "z"], 5)] where nothing listens for ["y"] and
    the first of the two listeners of ["x"] throws: the rules give the
    throw, with the second listener and ["z"] left out, and so does
    [trigger]. *)
Lemma trigger_delivers_in_order_witness :
  let b := run [On "x" 13; On "x" 1] new_bus in
  let b1 := with_call (Call (ByEmit "x") (User 13) VBus [VNum 5]) b in
  delivers [VNum 5] ["y"; "x"; "z"] b (Throw (VError "boom")) b1 ∧
  trigger (Names ["y"; "x"; "z"]) [VNum 5] b = (Throw (VError "boom"), b1).
Proof.
  intros b b1.
  assert (delivers [VNum 5] ["y"; "x"; "z"] b (Throw (VError "boom")) b1)
    as H.
  { apply (delivers_name _ "y" _ b b); [discriminate|apply invokes_none|].
    apply delivers_listener_throws.
    change (registered b "x") with [User 13; User 1].
    apply invokes_throws. reflexivity. }
  split; [exact H|].
  exact (proj1 (proj1 (trigger_delivers_in_order
                         (Names ["y"; "x"; "z"]) [VNum 5] b) _ _) H).
Defined.


Example triggerThen_boom :
  fst (triggerThen "e" [] (run [On "e" 13; On "e" 2] new_bus))
  = Normal (Promise.Rejected (VError "boom")).
Proof. reflexivity. Qed.

(** [once("x", f); trigger(["x"]); trigger(["x"])]: the first [trigger]
    applies the wrapper, which applies [f]; the second finds nothing. *)
Example once_then_two_triggers :
  let w := Wrapper 0 "x" (User 1) [VStr "x"; VFun (User 1)] in
  calls (run [Once "x" 1 None; Trigger (Names ["x"]) [];
              Trigger (Names ["x"]) []] new_bus)
  = [Call (ByEmit "x") w VBus [];
     Call (ByOnce 0) (User 1) VBus [VStr "x"; VFun (User 1)]].
Proof. reflexivity. Qed.

(** [once("a b", f); triggerThen("a b")]: the one wrapper is collected
    twice and applied twice; it applies [f] the first time only. *)
Example once_wrapper_applied_twice :
  let args := [VStr "a b"; VFun (User 1)] in
  let w := Wrapper 0 "a b" (User 1) args in
  calls (run [Once "a b" 1 None; TriggerThen "a b" []] new_bus)
  = [Call ByMap w VBus []; Call (ByOnce 0) (User 1) VBus args;
     Call ByMap w VBus []].
Proof. reflexivity. Qed.

(** [once("x", f); off("x", f); trigger(["x"])] calls nothing. *)
Example once_then_off :
  calls (run [Once "x" 1 None; Off (Some "x") (Some 1%nat);
              Trigger (Names ["x"]) []] new_bus) = [].
Proof. reflexivity. Qed.

(** [on("a b", f)], then [trigger(["a"])] and [trigger(["b"])]. *)
Example on_two_names :
  calls (run [On "a b" 1; Trigger (Names ["a"]) [];
              Trigger (Names ["b"]) []] new_bus)
  = [Call (ByEmit "a") (User 1) VBus []; Call (ByEmit "b") (User 1) VBus []].
Proof. reflexivity. Qed.

(** * More of the methods *)

(** ** The names [words] finds *)

Lemma many1_spec p l t rest :
  Lodash.many1 p l = Some (t, rest) →
  t ≠ [] ∧ l = t ++ rest ∧ forallb p t = true.
Proof.
  revert t rest. induction l as [|c l IH]; intros t rest; simpl; [done|].
  destruct (p c) eqn:Ep; [|done].
  destruct (Lodash.many1 p l) as [[t' rest']|] eqn:E.
  - intros [= <- <-]. destruct (IH t' rest' eq_refl) as (_ & -> & Ht).
    simpl. by rewrite Ep, Ht.
  - intros [= <- <-]. simpl. by rewrite Ep.
Qed.

Lemma many1_all p l :
  l ≠ [] → forallb p l = true → Lodash.many1 p l = Some (l, []).
Proof.
  induction l as [|c l IH]; [done|]. intros _ H. simpl in *.
  apply andb_prop in H as [-> Hl].
  destruct l as [|c' l]; [done|]. by rewrite IH.
Qed.

Lemma upper_run_before_word_spec l t rest :
  Lodash.upper_run_before_word l = Some (t, rest) →
  t ≠ [] ∧ l = t ++ rest ∧ forallb Lodash.upper t = true.
Proof.
  revert t rest. induction l as [|c l IH]; intros t rest; simpl; [done|].
  destruct (Lodash.upper c) eqn:Ep; [|done].
  destruct (Lodash.upper_run_before_word l) as [[t' rest']|] eqn:E.
  - intros [= <- <-]. destruct (IH t' rest' eq_refl) as (_ & -> & Ht).
    simpl. by rewrite Ep, Ht.
  - destruct (Lodash.ahead_upper_lower l); [|done].
    intros [= <- <-]. simpl. by rewrite Ep.
Qed.

Lemma forallb_word_char p t :
  (∀ c, p c = true → word_char c = true) →
  forallb p t = true → forallb word_char t = true.
Proof.
  intros Hp. induction t as [|c t IH]; simpl; [done|].
  intros H. apply andb_prop in H as [Hc Ht]. by rewrite (Hp c Hc), IH.
Qed.

Lemma upper_word_char c : Lodash.upper c = true → word_char c = true.
Proof. unfold word_char. by intros ->. Qed.

Lemma lower_word_char c : Lodash.lower c = true → word_char c = true.
Proof. unfold word_char. intros ->. by rewrite orb_true_r. Qed.

Lemma digit_word_char c : Lodash.digit c = true → word_char c = true.
Proof. unfold word_char. intros ->. by rewrite orb_true_r. Qed.

Lemma reWords_at_spec l t rest :
  Lodash.reWords_at l = Some (t, rest) →
  t ≠ [] ∧ l = t ++ rest ∧ forallb word_char t = true.
Proof.
  unfold Lodash.reWords_at.
  destruct (Lodash.upper_run_before_word l) as [[t1 r1]|] eqn:E1.
  { intros [= <- <-]. destruct (upper_run_before_word_spec _ _ _ E1)
      as (? & ? & H). repeat split; try done.
    by apply (forallb_word_char Lodash.upper), H; apply upper_word_char. }
  destruct (Lodash.capitalised_word l) as [[t2 r2]|] eqn:E2.
  { intros [= <- <-]. unfold Lodash.capitalised_word in E2.
    destruct l as [|c l]; [done|].
    destruct (Lodash.upper c) eqn:Eu.
    - destruct (Lodash.many1 Lodash.lower l) as [[t3 r3]|] eqn:E3.
      + injection E2 as <- <-.
        destruct (many1_spec _ _ _ _ E3) as (_ & -> & H).
        repeat split; try done. simpl.
        rewrite (upper_word_char c Eu). simpl.
        by apply (forallb_word_char Lodash.lower), H; apply lower_word_char.
      + destruct (many1_spec _ _ _ _ E2) as (? & ? & H).
        repeat split; try done.
        by apply (forallb_word_char Lodash.lower), H; apply lower_word_char.
    - destruct (many1_spec _ _ _ _ E2) as (? & ? & H).
      repeat split; try done.
      by apply (forallb_word_char Lodash.lower), H; apply lower_word_char. }
  destruct (Lodash.many1 Lodash.upper l) as [[t4 r4]|] eqn:E4.
  { intros [= <- <-]. destruct (many1_spec _ _ _ _ E4) as (? & ? & H).
    repeat split; try done.
    by apply (forallb_word_char Lodash.upper), H; apply upper_word_char. }
  intros E5. destruct (many1_spec _ _ _ _ E5) as (? & ? & H).
  repeat split; try done.
  by apply (forallb_word_char Lodash.digit), H; apply digit_word_char.
Qed.

Lemma match_all_spec fuel : ∀ l,
  Forall (fun t => t ≠ [] ∧ forallb word_char t = true)
    (Lodash.match_all fuel l).
Proof.
  induction fuel as [|fuel IH]; intros l; simpl; [constructor|].
  destruct l as [|c l]; [constructor|].
  destruct (Lodash.reWords_at (c :: l)) as [[t rest]|] eqn:E; [|apply IH].
  destruct (reWords_at_spec _ _ _ E) as (? & _ & ?).
  constructor; [done|apply IH].
Qed.

(** Every name [words] finds is a non-empty run of letters and digits. *)
Lemma words_are_word_strings s name :
  name ∈ Lodash.words s → name ≠ "" ∧ word_string name = true.
Proof.
  unfold Lodash.words. intros H. apply list_elem_of_In, in_map_iff in H
    as (t & <- & Ht).
  pose proof (match_all_spec (length (list_ascii_of_string s))
                (list_ascii_of_string s)) as Hall.
  rewrite List.Forall_forall in Hall. destruct (Hall t Ht) as [Hne Hw].
  split.
  - destruct t; [done|]. done.
  - unfold word_string. by rewrite list_ascii_of_string_of_list_ascii.
Qed.

Lemma lower_not_upper c : Lodash.lower c = true → Lodash.upper c = false.
Proof.
  unfold Lodash.lower, Lodash.upper, Lodash.between.
  intros H. apply not_true_is_false. intros H'.
  rewrite !orb_true_iff, !andb_true_iff, !N.leb_le in H, H'. lia.
Qed.

(** A name in small letters is the one word of itself. *)
Lemma words_small_letters s :
  s ≠ "" → small_letters s = true → Lodash.words s = [s].
Proof.
  unfold small_letters, Lodash.words. intros Hne H.
  destruct (list_ascii_of_string s) as [|c l] eqn:El.
  { destruct s; [done|discriminate]. }
  assert (Lodash.reWords_at (c :: l) = Some (c :: l, [])) as Hat.
  { unfold Lodash.reWords_at, Lodash.capitalised_word.
    simpl in H. apply andb_prop in H as [Hc Hl].
    cbn [Lodash.upper_run_before_word].
    rewrite (lower_not_upper c Hc).
    rewrite (many1_all Lodash.lower (c :: l)); [done|done|].
    simpl. by rewrite Hc, Hl. }
  cbn [length Lodash.match_all]. rewrite Hat.
  assert (Lodash.match_all (length l) [] = []) as -> by (by destruct l).
  change ([string_of_list_ascii (c :: l)] = [s]).
  by rewrite <-El, string_of_list_ascii_of_string.
Qed.

(** ** Subscribing and unsubscribing *)

Section Subscriptions.
Context {host : Host}.

Lemma on_loop_frame handler rest names : ∀ b,
  let r := for_of names (fun nm =>
             EventEmitter.on (VStr nm :: VFun handler :: rest)) b in
  fst r = Normal tt ∧ calls (snd r) = calls b ∧ cells (snd r) = cells b ∧
  next (snd r) = next b.
Proof.
  induction names as [|nm names IH]; intros b; [done|].
  cbn [for_of]. cbv zeta. rewrite bind_unfold.
  change (EventEmitter.on (VStr nm :: VFun handler :: rest) b) with
    (Normal VBus,
     with_events (fun events =>
       <[nm := default [] (events !! nm) ++ [handler]]> events) b).
  cbn iota.
  destruct (IH (with_events (fun events =>
       <[nm := default [] (events !! nm) ++ [handler]]> events) b))
    as (? & ? & ? & ?).
  by repeat split.
Qed.

Lemma not_word_not_in_words nameOrNames name :
  word_string name = false → name ∉ Lodash.words nameOrNames.
Proof.
  intros H Hin. apply words_are_word_strings in Hin as [_ Hw]. congruence.
Qed.

Lemma filter_eqb_absent name (names : list string) :
  name ∉ names → List.filter (String.eqb name) names = [].
Proof.
  induction names as [|nm names IH]; [done|]. intros H. simpl.
  destruct (String.eqb_spec name nm) as [->|_]; [set_solver|].
  apply IH. set_solver.
Qed.

Lemma off_events names listener b name :
  _events (snd (off (Some names) listener b)) !! name
  = if bool_decide (name ∈ Lodash.words names) then None
    else _events b !! name.
Proof.
  unfold off.
  assert (∃ rest, (match listener with
            | None => fun name => EventEmitter.removeAllListeners [VStr name]
            | Some l => fun name =>
                EventEmitter.removeAllListeners [VStr name; VFun l]
            end)
          = fun name => EventEmitter.removeAllListeners (VStr name :: rest))
    as [rest ->] by (destruct listener; eexists; reflexivity).
  rewrite bind_unfold.
  pose proof (each_remove_events (Lodash.words names) rest b name) as H.
  by destruct (Lodash.each _ _ b) as [[u|e] b1].
Qed.

Lemma on_frame nameOrNames handler args b name :
  let r := on nameOrNames handler args b in
  fst r = Normal VBus ∧
  registered (snd r) name
  = registered b name ++
    List.repeat handler
      (length (List.filter (String.eqb name) (Lodash.words nameOrNames))) ∧
  calls (snd r) = calls b ∧ cells (snd r) = cells b ∧ next (snd r) = next b.
Proof.
  intros r. subst r. split; [|split; [apply registered_on|]].
  - unfold on. rewrite bind_unfold.
    destruct (on_loop_frame handler args (Lodash.words nameOrNames) b)
      as (E & _).
    by destruct (for_of _ _ b) as [[u|e] b1]; simpl in *.
  - unfold on. rewrite bind_unfold.
    destruct (on_loop_frame handler args (Lodash.words nameOrNames) b)
      as (E & ? & ? & ?).
    by destruct (for_of _ _ b) as [[u|e] b1]; simpl in *.
Qed.

(** X1.  [on(nameOrNames, handler, ...args)] returns the bus and never
    throws; under every name it leaves the listeners there were, in
    their order, followed by the handler once for each time the name
    occurs among the words of [nameOrNames]; it applies no function and
    touches no closure of [once]. *)
Theorem on_appends_to_each_name nameOrNames handler args b name :
  let r := on nameOrNames handler args b in
  fst r = Normal VBus ∧
  registered (snd r) name
  = registered b name ++
    List.repeat handler
      (length (List.filter (String.eqb name) (Lodash.words nameOrNames))) ∧
  calls (snd r) = calls b ∧ cells (snd r) = cells b ∧ next (snd r) = next b.
Proof. apply on_frame. Qed.

(** X2.  A name that holds a character other than a letter or a digit
    (a colon, a dash, a space) is out of reach of [on], [off] and [once]:
    whatever name list they are given, the listeners of that name stay
    as they are. *)
Theorem names_with_punctuation_are_out_of_reach
    nameOrNames handler args listener context b name :
  word_string name = false →
  registered (exec (on nameOrNames handler args) b) name = registered b name ∧
  registered (exec (off (Some nameOrNames) listener) b) name
  = registered b name ∧
  registered (exec (once nameOrNames handler context) b) name
  = registered b name.
Proof.
  intros Hw.
  pose proof (not_word_not_in_words nameOrNames name Hw) as Hnot.
  split; [|split]; unfold exec.
  - rewrite registered_on, (filter_eqb_absent _ _ Hnot). simpl.
    apply app_nil_r.
  - unfold registered. rewrite off_events.
    by rewrite bool_decide_eq_false_2.
  - rewrite once_unfold, registered_on, (filter_eqb_absent _ _ Hnot). simpl.
    apply app_nil_r.
Qed.

(** X3.  For a name written in small letters, [on(name, handler)] puts
    the handler at the end of the listeners of that very name and leaves
    every other name alone. *)
Theorem on_small_letters_name s handler args b name :
  s ≠ "" → small_letters s = true →
  registered (exec (on s handler args) b) name
  = if String.eqb name s then registered b name ++ [handler]
    else registered b name.
Proof.
  intros Hne Hs. unfold exec.
  rewrite registered_on, (words_small_letters s Hne Hs). simpl.
  destruct (String.eqb name s); simpl; [done|apply app_nil_r].
Qed.

(** X4.  [off(nameOrNames, listener)] with a name list returns the bus
    and never throws; afterwards nothing is registered under the names
    that are words of the list, and every other name has the listeners
    it had; no function is applied and no closure of [once] is touched.
    This holds with a listener as without one. *)
Theorem off_clears_exactly_the_names nameOrNames listener b name :
  let r := off (Some nameOrNames) listener b in
  fst r = Normal VBus ∧
  registered (snd r) name
  = (if bool_decide (name ∈ Lodash.words nameOrNames) then []
     else registered b name) ∧
  calls (snd r) = calls b ∧ cells (snd r) = cells b ∧ next (snd r) = next b.
Proof.
  intros r. subst r.
  destruct (off_calls (Some nameOrNames) listener b) as (b' & E & ? & ? & ?).
  split; [by rewrite E|]. split; [|by rewrite E].
  unfold registered. rewrite off_events. by case_bool_decide.
Qed.

(** X5.  [off(null, listener)] deletes the list filed under the text the
    listener turns into as a property key, and nothing else: under every
    other name the listeners stay, those that are this listener
    included. *)
Theorem off_without_name_keeps_the_names listener b name :
  let r := off None (Some listener) b in
  fst r = Normal VBus ∧
  registered (snd r) name
  = (if String.eqb name (toPropertyKey (VFun listener)) then []
     else registered b name) ∧
  calls (snd r) = calls b.
Proof.
  cbv zeta. split; [done|]. split; [|done].
  change (off None (Some listener) b) with
    (Normal VBus, with_events (delete (toPropertyKey (VFun listener))) b).
  unfold registered. cbn [snd with_events _events].
  destruct (String.eqb_spec name (toPropertyKey (VFun listener))) as [->|Hne].
  - by rewrite lookup_delete_eq.
  - by rewrite lookup_delete_ne.
Qed.

(** X6.  [off] twice in a row leaves the bus as [off] once does, whatever
    its two arguments are. *)
Theorem off_twice_is_off_once nameOrNames listener b :
  exec (off nameOrNames listener) (exec (off nameOrNames listener) b)
  = exec (off nameOrNames listener) b.
Proof.
  unfold exec.
  assert (∀ b1 b2 : Bus,
            _events b1 = _events b2 → cells b1 = cells b2 →
            next b1 = next b2 → calls b1 = calls b2 → b1 = b2) as Heq.
  { intros [] []; simpl; by intros -> -> -> ->. }
  destruct nameOrNames as [names|].
  - destruct (off_calls (Some names) listener b)
      as (b1 & E1 & Hc1 & Hce1 & Hn1).
    destruct (off_calls (Some names) listener b1)
      as (b2 & E2 & Hc2 & Hce2 & Hn2).
    pose proof (off_events names listener b) as He1.
    pose proof (off_events names listener b1) as He2.
    rewrite E1 in *. simpl in *. rewrite E2 in *. simpl in *.
    apply Heq; try congruence.
    apply map_eq. intros name. rewrite He2, He1. by case_bool_decide.
  - destruct listener as [l|].
    + change (off None (Some l)) with
        (fun b0 : Bus =>
           (Normal VBus, with_events (delete (toPropertyKey (VFun l))) b0)).
      cbn beta. cbn [snd].
      apply Heq; try done. cbn [with_events _events]. apply map_eq.
      intros name.
      destruct (decide (toPropertyKey (VFun l) = name)) as [<-|Hne].
      * by rewrite !lookup_delete_eq.
      * by rewrite !lookup_delete_ne.
    + done.
Qed.

(** X7.  [once(name, callback, context)] returns the bus and never
    throws.  It makes one new closure, whose [_callback] is the callback
    and whose [n] is 2, and puts it at the end of the listeners of every
    word of [name], once for each time the word occurs; it applies no
    function. *)
Theorem once_registers_a_new_closure name callback context b t :
  let r := once name callback context b in
  let w := Wrapper (next b) name callback
             ([VStr name; VFun callback] ++
              match context with Some c => [c] | None => [] end) in
  fst r = Normal VBus ∧
  _callback w = Some callback ∧
  registered (snd r) t
  = registered b t ++
    List.repeat w (length (List.filter (String.eqb t) (Lodash.words name))) ∧
  next (snd r) = S (next b) ∧
  cells (snd r) !! next b = Some (Cell 2 VUndefined) ∧
  calls (snd r) = calls b.
Proof.
  intros r w. subst r. rewrite once_unfold. fold w.
  set (b1 := with_next _ _).
  destruct (on_frame name w
              [default VUndefined context] b1 t) as (E & Hreg & Hc & Hce & Hn).
  repeat split; try done.
  - by rewrite Hce; simpl; rewrite lookup_insert_eq.
Qed.

End Subscriptions.

(** ** Firing *)

Lemma only_removes_refl b : only_removes b b.
Proof. intros name. by left. Qed.

Lemma only_removes_trans b1 b2 b3 :
  only_removes b1 b2 → only_removes b2 b3 → only_removes b1 b3.
Proof.
  intros H12 H23 name. destruct (H23 name) as [E|E]; rewrite E; [apply H12|by right].
Qed.

Section Firing.
Context {host : Host}.

Lemma emit_none apply name args b :
  _events b !! name = None → name ≠ "error" →
  EventEmitter.emit apply name args b = (Normal false, b).
Proof.
  intros H Hne. unfold EventEmitter.emit. rewrite bind_unfold.
  cbn [get]. rewrite H.
  by destruct (String.eqb_spec name "error").
Qed.

Lemma emit_some apply name args b ls :
  _events b !! name = Some ls →
  EventEmitter.emit apply name args b =
  match for_of ls (fun l => apply l VBus args) b with
  | (Normal _, b') => (Normal true, b')
  | (Throw e, b') => (Throw e, b')
  end.
Proof.
  intros H. unfold EventEmitter.emit. rewrite bind_unfold.
  cbn [get]. rewrite H. rewrite bind_unfold.
  by destruct (for_of ls _ b) as [[u|e] b'].
Qed.

Lemma trigger_nothing names args : ∀ b,
  Forall (fun name => _events b !! name = None ∧ name ≠ "error") names →
  trigger (Names names) args b = (Normal VBus, b).
Proof.
  induction names as [|name names IH]; intros b H; [done|].
  apply Forall_cons in H as [[Hn Hne] H].
  rewrite trigger_cons, (emit_none _ name args b Hn Hne). by apply IH.
Qed.

(** X8.  [trigger] for names under which nothing is registered, none of
    them ["error"], returns the bus and changes nothing. *)
Theorem trigger_without_listeners nameOrNames args b :
  Forall (fun name => _events b !! name = None ∧ name ≠ "error")
    (iterate nameOrNames) →
  trigger nameOrNames args b = (Normal VBus, b).
Proof.
  intros H.
  change (trigger nameOrNames args)
    with (trigger (Names (iterate nameOrNames)) args).
  by apply trigger_nothing.
Qed.

(** X9.  After [off()] with no argument nothing is registered under any
    name: [trigger] for any names but ["error"] returns the bus and
    applies nothing, and [triggerThen] collects no listener. *)
Theorem off_all_silences_the_bus nameOrNames names args b :
  "error" ∉ iterate nameOrNames →
  let b0 := exec (off None None) b in
  (∀ name, registered b0 name = []) ∧
  calls b0 = calls b ∧
  trigger nameOrNames args b0 = (Normal VBus, b0) ∧
  collected b0 names = [].
Proof.
  intros Herr b0.
  assert (∀ name, _events b0 !! name = None) as Hnone
    by (intros name; apply lookup_empty).
  assert (∀ name, registered b0 name = []) as Hreg
    by (intros name; unfold registered; by rewrite Hnone).
  split; [done|]. split; [done|]. split.
  - change (trigger nameOrNames args)
      with (trigger (Names (iterate nameOrNames)) args).
    apply trigger_nothing. apply Forall_forall. intros name Hin.
    split; [apply Hnone|]. by intros ->.
  - unfold collected. induction (Lodash.words names) as [|t ts IH]; [done|].
    simpl. by rewrite Hreg, IH.
Qed.

(** X10.  [trigger] of a list is [trigger] of its first part and then,
    if that returned, [trigger] of the rest on the bus it left; what the
    first part throws is thrown. *)
Theorem trigger_in_two_parts names1 names2 args : ∀ b,
  trigger (Names (names1 ++ names2)) args b =
  match trigger (Names names1) args b with
  | (Normal _, b1) => trigger (Names names2) args b1
  | (Throw e, b1) => (Throw e, b1)
  end.
Proof.
  induction names1 as [|name names1 IH]; intros b; [done|].
  rewrite <-app_comm_cons, !trigger_cons.
  destruct (EventEmitter.emit _ name args b) as [[u|e] b1];
    [apply IH|done].
Qed.

(** The closure of [once] at its first application. *)
Lemma apply_fresh_wrapper who id name k arguments this args b c :
  cells b !! id = Some c → n c = 2 →
  let w := Wrapper id name (User k) arguments in
  let b0 := with_call (Call who w this args) b in
  let b1 := with_cells (insert id (Cell 1 (result c))) b0 in
  let b2 := snd (off (Some name) (Some w) b1) in
  let b3 := with_call (Call (ByOnce id) (User k) VBus arguments) b2 in
  apply who w this args b =
  match behave (calls b3) k VBus arguments with
  | Normal r => (Normal r, with_cells (insert id (Cell 1 r)) b3)
  | Throw e => (Throw e, b3)
  end.
Proof.
  intros Hc Hn w b0 b1 b2 b3.
  unfold w. rewrite apply_unfold. cbv zeta. fold w. fold b0.
  rewrite before_apply_unfold. cbv zeta.
  assert (cells b0 !! id = Some c) as -> by done.
  simpl default. rewrite Hn. change (2 - 1) with 1. cbn [Z.ltb Z.compare].
  fold b1. rewrite bind_unfold.
  destruct (off_calls (Some name) (Some w) b1) as (b2' & Eoff & Hc2 & Hce2 & _).
  assert (b2 = b2') as Hb2 by (unfold b2; by rewrite Eoff).
  rewrite Eoff, <-Hb2. rewrite apply_unfold. cbv zeta. fold b3.
  destruct (behave (calls b3) k VBus arguments) as [r|e]; [|done].
  assert (cells b3 !! id = Some (Cell 1 (result c))) as Hcell3;
    [|by rewrite Hcell3].
  unfold b3. cbn [with_call cells]. rewrite Hb2, Hce2. unfold b1.
  cbn [with_cells cells]. apply lookup_insert_eq.
Qed.

Lemma fresh_wrapper_aux who id name k arguments this args b c :
  cells b !! id = Some c → n c = 2 →
  let w := Wrapper id name (User k) arguments in
  let r := apply who w this args b in
  Forall (fun t => _events (snd r) !! t = None) (Lodash.words name) ∧
  calls (snd r)
  = calls b ++ [Call who w this args;
                Call (ByOnce id) (User k) VBus arguments] ∧
  fst r = behave (calls (snd r)) k VBus arguments ∧
  n <$> cells (snd r) !! id = Some 1.
Proof.
  intros Hc Hn w r. subst r w.
  rewrite (apply_fresh_wrapper who id name k arguments this args b c Hc Hn).
  cbv zeta. set (w := Wrapper id name (User k) arguments).
  set (b0 := with_call (Call who w this args) b).
  set (b1 := with_cells (insert id (Cell 1 (result c))) b0).
  destruct (off_calls (Some name) (Some w) b1) as (b2 & Eoff & Hc2 & Hce2 & _).
  pose proof (fun t => off_events name (Some w) b1 t) as Hev.
  rewrite Eoff in *. cbn [snd] in *.
  set (b3 := with_call (Call (ByOnce id) (User k) VBus arguments) b2).
  assert (calls b3 = calls b ++ [Call who w this args;
            Call (ByOnce id) (User k) VBus arguments]) as Hcalls.
  { unfold b3. cbn [with_call calls]. rewrite Hc2. unfold b1, b0.
    cbn [with_cells with_call calls]. by rewrite <-app_assoc. }
  assert (Forall (fun t => _events b3 !! t = None) (Lodash.words name))
    as Hreg.
  { apply Forall_forall. intros t Ht. unfold b3.
    cbn [with_call _events]. rewrite Hev. by rewrite bool_decide_eq_true_2. }
  assert (cells b3 !! id = Some (Cell 1 (result c))) as Hcell.
  { unfold b3. cbn [with_call cells]. rewrite Hce2. unfold b1.
    cbn [with_cells cells]. apply lookup_insert_eq. }
  destruct (@behave host (calls b3) k VBus arguments) as [v|e] eqn:Eb;
    cbn [fst snd].
  - change (calls (with_cells (insert id (Cell 1 v)) b3)) with (calls b3).
    split; [exact Hreg|]. split; [exact Hcalls|]. split; [by rewrite Eb|].
    cbn [with_cells cells]. by rewrite lookup_insert_eq.
  - split; [exact Hreg|]. split; [exact Hcalls|]. split; [by rewrite Eb|].
    by rewrite Hcell.
Qed.

(** X11.  A closure of [once] that has not fired ([n] is 2), when it is
    applied, first deletes the list of every word of its name list, then
    applies its callback to the arguments of the call of [once] with the
    bus as [this]; it ends as the callback ends, and whether the
    callback returns or throws its [n] is 1 from then on. *)
Theorem fresh_wrapper_fires who id name k arguments this args b c :
  cells b !! id = Some c → n c = 2 →
  let w := Wrapper id name (User k) arguments in
  let r := apply who w this args b in
  Forall (fun t => _events (snd r) !! t = None) (Lodash.words name) ∧
  calls (snd r)
  = calls b ++ [Call who w this args;
                Call (ByOnce id) (User k) VBus arguments] ∧
  fst r = behave (calls (snd r)) k VBus arguments ∧
  n <$> cells (snd r) !! id = Some 1.
Proof. apply fresh_wrapper_aux. Qed.

(** X12.  A closure of [once] that has fired ([n] is at most 1), when it
    is applied, applies nothing: it returns the result it has kept and
    leaves every list as it is. *)
Theorem spent_wrapper_is_inert who id name callback arguments this args b c :
  cells b !! id = Some c → n c ≤ 1 →
  let w := Wrapper id name callback arguments in
  let r := apply who w this args b in
  fst r = Normal (result c) ∧
  _events (snd r) = _events b ∧
  calls (snd r) = calls b ++ [Call who w this args].
Proof.
  intros Hc Hn w r. subst r. unfold w. rewrite apply_unfold. cbv zeta.
  rewrite before_apply_unfold. cbv zeta.
  assert (cells (with_call (Call who (Wrapper id name callback arguments)
                              this args) b) !! id = Some c) as -> by done.
  simpl default.
  destruct (Z.ltb_spec 0 (n c - 1)); [lia|]. done.
Qed.

End Firing.

(** ** Subscribing, then firing *)

Section RoundTrips.
Context {host : Host}.

Lemma on_single s handler args b :
  Lodash.words s = [s] →
  on s handler args b =
  (Normal VBus,
   with_events (fun events =>
     <[s := default [] (events !! s) ++ [handler]]> events) b).
Proof. intros H. unfold on. by rewrite H. Qed.

(** X13.  On a bus with nothing under a name in small letters,
    [on(name, f)] followed by [trigger([name], ...args)] applies [f]
    once, to [args] and with the bus as [this], and applies nothing
    else; [trigger] returns the bus if [f] returns and throws what [f]
    throws; [f] stays registered. *)
Theorem on_then_trigger_calls_once s k xs args b :
  s ≠ "" → small_letters s = true → _events b !! s = None →
  let b1 := exec (on s (User k) xs) b in
  let r := trigger (Names [s]) args b1 in
  calls (snd r) = calls b ++ [Call (ByEmit s) (User k) VBus args] ∧
  fst r = match behave (calls (snd r)) k VBus args with
          | Normal _ => Normal VBus
          | Throw e => Throw e
          end ∧
  registered (snd r) s = [User k].
Proof.
  intros Hne Hs Hnone b1 r. subst r b1. unfold exec.
  rewrite (on_single s (User k) xs b (words_small_letters s Hne Hs)).
  cbn [snd]. set (b1 := with_events _ b).
  assert (_events b1 !! s = Some [User k]) as Hb1.
  { unfold b1. cbn [with_events _events]. rewrite lookup_insert_eq, Hnone.
    done. }
  rewrite trigger_cons, (emit_some _ s args b1 [User k] Hb1).
  cbn [for_of]. rewrite bind_unfold, apply_unfold. cbv zeta.
  set (b2 := with_call _ b1).
  assert (registered b2 s = [User k]) as Hreg
    by (unfold registered, b2; cbn [with_call _events]; by rewrite Hb1).
  destruct (@behave host (calls b2) k VBus args) as [v|e] eqn:Eb.
  - change ((mret () : M unit) b2) with (Normal tt, b2). cbn iota.
    change (trigger (Names []) args b2) with (Normal VBus, b2).
    cbn [fst snd]. rewrite Eb. by repeat split.
  - cbn [fst snd]. rewrite Eb. by repeat split.
Qed.

(** X14.  On a bus with nothing under a name in small letters other
    than ["error"], [once(name, f, context)] followed by
    [trigger([name], ...args)] applies the new closure to [args] and the
    closure applies [f] once, to the arguments of [once]; afterwards
    nothing is registered under the name, and a further [trigger] for it
    returns the bus and applies nothing: over the two [trigger]s [f] was
    applied exactly once. *)
Theorem once_then_trigger_twice s k context args args' b :
  s ≠ "" → small_letters s = true → s ≠ "error" → _events b !! s = None →
  let arguments := [VStr s; VFun (User k)] ++
                   match context with Some c => [c] | None => [] end in
  let w := Wrapper (next b) s (User k) arguments in
  let b1 := exec (once s (User k) context) b in
  let b2 := exec (trigger (Names [s]) args) b1 in
  registered b1 s = [w] ∧
  calls b2 = calls b ++ [Call (ByEmit s) w VBus args;
                         Call (ByOnce (next b)) (User k) VBus arguments] ∧
  registered b2 s = [] ∧
  trigger (Names [s]) args' b2 = (Normal VBus, b2).
Proof.
  intros Hne Hs Herr Hnone arguments w b1 b2.
  pose proof (words_small_letters s Hne Hs) as Hw.
  assert (b1 = with_events (fun events =>
             <[s := default [] (events !! s) ++ [w]]> events)
            (with_next (S (next b))
               (with_cells (insert (next b) (Cell 2 VUndefined)) b))) as Hb1.
  { unfold b1, exec. rewrite once_unfold. fold arguments. fold w.
    by rewrite (on_single s w _ _ Hw). }
  assert (_events b1 !! s = Some [w]) as He1.
  { rewrite Hb1. cbn [with_events with_next with_cells _events].
    by rewrite lookup_insert_eq, Hnone. }
  assert (cells b1 !! next b = Some (Cell 2 VUndefined)) as Hc1.
  { rewrite Hb1. cbn [with_events with_next with_cells cells].
    by rewrite lookup_insert_eq. }
  assert (calls b1 = calls b) as Hcalls1 by (by rewrite Hb1).
  split; [unfold registered; by rewrite He1|].
  assert (b2 = snd (apply (ByEmit s) w VBus args b1)) as Hb2.
  { unfold b2, exec. rewrite trigger_cons, (emit_some _ s args b1 [w] He1).
    cbn [for_of]. rewrite bind_unfold.
    by destruct (apply (ByEmit s) w VBus args b1) as [[v|e] b']. }
  destruct (fresh_wrapper_aux (ByEmit s) (next b) s k arguments VBus args b1
              (Cell 2 VUndefined) Hc1 eq_refl) as (Hdel & Hcalls & _).
  fold w in Hdel, Hcalls. rewrite <-Hb2 in Hdel, Hcalls.
  assert (_events b2 !! s = None) as Hn2.
  { rewrite Hw in Hdel. by apply Forall_cons in Hdel as [? _]. }
  split; [|split].
  - rewrite Hcalls, Hcalls1. reflexivity.
  - unfold registered. by rewrite Hn2.
  - apply trigger_nothing. by repeat constructor.
Qed.

(** X15.  [trigger] and [triggerThen] register nothing and make no
    closure: from the bus they start on to the bus they leave, the list
    of a name is kept as it is or deleted (by a closure of [once] that
    fires), and the count of closures is the same. *)
Theorem firing_only_removes nameOrNames names args b :
  (only_removes b (exec (trigger nameOrNames args) b) ∧
   next (exec (trigger nameOrNames args) b) = next b) ∧
  (only_removes b (exec (triggerThen names args) b) ∧
   next (exec (triggerThen names args) b) = next b).
Proof.
  set (I := fun b' : Bus => only_removes b b' ∧ next b' = next b).
  assert (I b) as HI by (split; [apply only_removes_refl|done]).
  assert (∀ f who this xs, preserves I (apply who f this xs)) as Happly.
  { induction f as [u|id name callback IH arguments];
      intros who this xs b0 [Hr Hn]; rewrite apply_unfold; cbv zeta.
    - by destruct (behave _ u this xs).
    - rewrite before_apply_unfold. cbv zeta.
      destruct (0 <? _); [|done].
      rewrite bind_unfold.
      set (b1 := with_cells _ (with_call _ b0)).
      destruct (off_calls (Some name)
                  (Some (Wrapper id name callback arguments)) b1)
        as (b2 & Eoff & _ & _ & Hn2).
      pose proof (off_events name
                    (Some (Wrapper id name callback arguments)) b1) as Hev.
      rewrite Eoff in *. cbn [snd] in Hev.
      assert (I b2) as HI2.
      { split; [|by rewrite Hn2].
        eapply only_removes_trans; [exact Hr|]. intros t. rewrite Hev.
        case_bool_decide; [by right|by left]. }
      specialize (IH (ByOnce id) VBus arguments b2 HI2).
      by destruct (apply (ByOnce id) callback VBus arguments b2)
        as [[v|e] b3]. }
  split.
  - unfold exec, trigger.
    refine (preserves_bind I _ _ _ _ b HI); [|intros; apply preserves_ret].
    apply preserves_for_of. intros name _ b0 HI0.
    unfold EventEmitter.emit. rewrite bind_unfold. cbn [get].
    destruct (_events b0 !! name) as [handler|].
    + refine (preserves_bind I _ _ _ _ b0 HI0);
        [|intros; apply preserves_ret].
      apply preserves_for_of. intros l _. apply Happly.
    + by destruct (String.eqb name "error").
  - unfold exec, triggerThen. rewrite bind_unfold, flatMap_listeners.
    unfold Promise.map.
    refine (preserves_bind I _ _ _ _ b HI); [|intros; apply preserves_ret].
    apply preserves_map_. intros l _. apply preserves_attempt, Happly.
Qed.

(** X16.  What [triggerThen] collects with [flatMap]: the listeners of
    each name in the order of the names, a name that comes twice giving
    its listeners twice; collecting changes nothing and cannot throw,
    not even for ["error"]. *)
Theorem flatMap_collects_in_name_order names1 names2 b :
  flatMap (names1 ++ names2) EventEmitter.listeners b
  = (Normal (List.flat_map (registered b) names1 ++
             List.flat_map (registered b) names2), b).
Proof. by rewrite flatMap_listeners, flat_map_app. Qed.

(** X17.  [triggerThen] for names under which nothing is registered
    (["error"] may be one of them) applies nothing, changes nothing and
    returns a promise fulfilled with the empty array. *)
Theorem triggerThen_without_listeners names args b :
  Forall (fun name => _events b !! name = None) (Lodash.words names) →
  triggerThen names args b = (Normal (Promise.Fulfilled []), b).
Proof.
  intros H. unfold triggerThen. rewrite bind_unfold, flatMap_listeners.
  assert (List.flat_map (registered b) (Lodash.words names) = []) as ->;
    [|done].
  induction H as [|name l Hn _ IH]; [done|].
  simpl. unfold registered at 1. by rewrite Hn, IH.
Qed.

Lemma on_loop_elsewhere handler rest name names : ∀ b,
  name ∉ names →
  _events (snd (for_of names (fun nm =>
                  EventEmitter.on (VStr nm :: VFun handler :: rest)) b))
    !! name
  = _events b !! name.
Proof.
  induction names as [|nm names IH]; intros b Hnot; [done|].
  cbn [for_of]. rewrite bind_unfold.
  change (EventEmitter.on (VStr nm :: VFun handler :: rest) b) with
    (Normal VBus,
     with_events (fun events =>
       <[nm := default [] (events !! nm) ++ [handler]]> events) b).
  cbn iota. rewrite IH by set_solver.
  cbn [with_events _events]. apply lookup_insert_ne. set_solver.
Qed.

(** X18.  When nothing is registered under the names of a list,
    [on(names, handler)] followed by [off(names)] (with a listener or
    without) gives back the bus as it was. *)
Theorem on_then_off_restores names handler args listener b :
  Forall (fun name => _events b !! name = None) (Lodash.words names) →
  exec (off (Some names) listener) (exec (on names handler args) b) = b.
Proof.
  intros Hfree. unfold exec.
  destruct (on_frame names handler args b "") as (_ & _ & Hc & Hce & Hn).
  set (b1 := snd (on names handler args b)) in *.
  destruct (off_calls (Some names) listener b1) as (b2 & E & Hc2 & Hce2 & Hn2).
  pose proof (off_events names listener b1) as Hev.
  rewrite E in *. cbn [snd] in *.
  assert (_events b2 = _events b) as He.
  { apply map_eq. intros name. rewrite Hev. case_bool_decide as Hin.
    - symmetry. by apply (proj1 (Forall_forall _ _) Hfree).
    - unfold b1, on. rewrite bind_unfold.
      pose proof (on_loop_elsewhere handler args name (Lodash.words names)
                    b Hin) as H.
      by destruct (for_of _ _ b) as [[u|e] b']. }
  destruct b2, b; simpl in *. congruence.
Qed.

End RoundTrips.

(** ** The methods at work *)

(** A handler under ["fetched"]; the name ["fetched:collection"]. *)
Lemma names_with_punctuation_are_out_of_reach_witness :
  let b := run [On "fetched" 1] new_bus in
  let name := "fetched:collection" in
  word_string name = false ∧
  (registered (exec (on name (User 2) []) b) name = registered b name ∧
   registered (exec (off (Some name) None) b) name = registered b name ∧
   registered (exec (once name (User 2) None) b) name = registered b name).
Proof.
  intros b name. split; [reflexivity|].
  exact (names_with_punctuation_are_out_of_reach
           name (User 2) [] None None b name eq_refl).
Defined.

(** [on("change", f)] on a bus where [g] listens for ["change"]. *)
Lemma on_small_letters_name_witness :
  let b := run [On "change" 2] new_bus in
  "change" ≠ "" ∧ small_letters "change" = true ∧
  registered (exec (on "change" (User 1) []) b) "change"
  = (if String.eqb "change" "change"
     then registered b "change" ++ [User 1]
     else registered b "change").
Proof.
  intros b.
  assert ("change" ≠ "") as Hne by discriminate.
  split; [exact Hne|]. split; [reflexivity|].
  exact (on_small_letters_name "change" (User 1) [] b "change" Hne eq_refl).
Defined.

(** [trigger(["a", "b"], 5)] on a bus with a listener of ["x"] only. *)
Lemma trigger_without_listeners_witness :
  let b := run [On "x" 1] new_bus in
  Forall (fun name => _events b !! name = None ∧ name ≠ "error")
    (iterate (Names ["a"; "b"])) ∧
  trigger (Names ["a"; "b"]) [VNum 5] b = (Normal VBus, b).
Proof.
  intros b.
  assert (Forall (fun name => _events b !! name = None ∧ name ≠ "error")
            (iterate (Names ["a"; "b"]))) as H
    by (repeat constructor; (reflexivity || discriminate)).
  split; [exact H|].
  exact (trigger_without_listeners (Names ["a"; "b"]) [VNum 5] b H).
Defined.

(** [off()] on a bus with listeners of ["x"] and ["y"], then
    [trigger(["x", "y"])] and [triggerThen("x y")]. *)
Lemma off_all_silences_the_bus_witness :
  let b := run [On "x" 1; Once "y" 2 None] new_bus in
  "error" ∉ iterate (Names ["x"; "y"]) ∧
  let b0 := exec (off None None) b in
  (∀ name, registered b0 name = []) ∧
  calls b0 = calls b ∧
  trigger (Names ["x"; "y"]) [] b0 = (Normal VBus, b0) ∧
  collected b0 "x y" = [].
Proof.
  intros b.
  assert ("error" ∉ iterate (Names ["x"; "y"])) as H
    by (apply (bool_decide_unpack _); reflexivity).
  split; [exact H|].
  exact (off_all_silences_the_bus (Names ["x"; "y"]) "x y" [] b H).
Defined.

(** The closure of [once("x", f)], applied for the first time. *)
Lemma fresh_wrapper_fires_witness :
  let b := run [Once "x" 1 None] new_bus in
  let c := Cell 2 VUndefined in
  let arguments := [VStr "x"; VFun (User 1)] in
  cells b !! O = Some c ∧ n c = 2 ∧
  let w := Wrapper O "x" (User 1) arguments in
  let r := apply (ByEmit "x") w VBus [VNum 5] b in
  Forall (fun t => _events (snd r) !! t = None) (Lodash.words "x") ∧
  calls (snd r)
  = calls b ++ [Call (ByEmit "x") w VBus [VNum 5];
                Call (ByOnce O) (User 1) VBus arguments] ∧
  fst r = behave (calls (snd r)) 1 VBus arguments ∧
  n <$> cells (snd r) !! O = Some 1.
Proof.
  intros b c arguments.
  assert (cells b !! O = Some c) as H by reflexivity.
  split; [exact H|]. split; [reflexivity|].
  exact (fresh_wrapper_fires (ByEmit "x") O "x" 1 arguments VBus [VNum 5]
           b c H eq_refl).
Defined.

(** The closure of [once("x", f)], applied again after it has fired. *)
Lemma spent_wrapper_is_inert_witness :
  let b := run [Once "x" 1 None; Trigger (Names ["x"]) []] new_bus in
  let c := Cell 1 (VNum 1) in
  let arguments := [VStr "x"; VFun (User 1)] in
  cells b !! O = Some c ∧ n c ≤ 1 ∧
  let w := Wrapper O "x" (User 1) arguments in
  let r := apply (ByEmit "x") w VBus [VNum 5] b in
  fst r = Normal (result c) ∧
  _events (snd r) = _events b ∧
  calls (snd r) = calls b ++ [Call (ByEmit "x") w VBus [VNum 5]].
Proof.
  intros b c arguments.
  assert (cells b !! O = Some c) as H by reflexivity.
  assert (n c ≤ 1) as Hn by (simpl; lia).
  split; [exact H|]. split; [exact Hn|].
  exact (spent_wrapper_is_inert (ByEmit "x") O "x" (User 1) arguments VBus
           [VNum 5] b c H Hn).
Defined.

(** [on("change", f)], then [trigger(["change"], 5)], on a new bus. *)
Lemma on_then_trigger_calls_once_witness :
  let b := new_bus in
  "change" ≠ "" ∧ small_letters "change" = true ∧
  _events b !! "change" = None ∧
  let b1 := exec (on "change" (User 1) []) b in
  let r := trigger (Names ["change"]) [VNum 5] b1 in
  calls (snd r) = calls b ++ [Call (ByEmit "change") (User 1) VBus [VNum 5]] ∧
  fst r = match behave (calls (snd r)) 1 VBus [VNum 5] with
          | Normal _ => Normal VBus
          | Throw e => Throw e
          end ∧
  registered (snd r) "change" = [User 1].
Proof.
  intros b.
  assert ("change" ≠ "") as Hne by discriminate.
  assert (_events b !! "change" = None) as Hnone by reflexivity.
  split; [exact Hne|]. split; [reflexivity|]. split; [exact Hnone|].
  exact (on_then_trigger_calls_once "change" 1 [] [VNum 5] b
           Hne eq_refl Hnone).
Defined.

(** [once("change", f, ctx)], then [trigger(["change"], 5)] twice, on a
    bus with a listener of ["x"]. *)
Lemma once_then_trigger_twice_witness :
  let b := run [On "x" 2] new_bus in
  let s := "change" in
  s ≠ "" ∧ small_letters s = true ∧ s ≠ "error" ∧ _events b !! s = None ∧
  let arguments := [VStr s; VFun (User 1)] ++ [VNum 7] in
  let w := Wrapper (next b) s (User 1) arguments in
  let b1 := exec (once s (User 1) (Some (VNum 7))) b in
  let b2 := exec (trigger (Names [s]) [VNum 5]) b1 in
  registered b1 s = [w] ∧
  calls b2 = calls b ++ [Call (ByEmit s) w VBus [VNum 5];
                         Call (ByOnce (next b)) (User 1) VBus arguments] ∧
  registered b2 s = [] ∧
  trigger (Names [s]) [VNum 5] b2 = (Normal VBus, b2).
Proof.
  intros b s.
  assert (s ≠ "") as Hne by discriminate.
  assert (s ≠ "error") as Herr by discriminate.
  assert (_events b !! s = None) as Hnone by reflexivity.
  split; [exact Hne|]. split; [reflexivity|]. split; [exact Herr|].
  split; [exact Hnone|].
  exact (once_then_trigger_twice s 1 (Some (VNum 7)) [VNum 5] [VNum 5] b
           Hne eq_refl Herr Hnone).
Defined.

(** [triggerThen("error x")] on a bus with a listener of ["y"] only. *)
Lemma triggerThen_without_listeners_witness :
  let b := run [On "y" 1] new_bus in
  Forall (fun name => _events b !! name = None) (Lodash.words "error x") ∧
  triggerThen "error x" [] b = (Normal (Promise.Fulfilled []), b).
Proof.
  intros b.
  assert (Forall (fun name => _events b !! name = None)
            (Lodash.words "error x")) as H
    by (repeat constructor).
  split; [exact H|].
  exact (triggerThen_without_listeners "error x" [] b H).
Defined.

(** [on("add remove", f)], then [off("add remove", f)], on a bus with a
    listener of ["x"]. *)
Lemma on_then_off_restores_witness :
  let b := run [On "x" 2] new_bus in
  Forall (fun name => _events b !! name = None) (Lodash.words "add remove") ∧
  exec (off (Some "add remove") (Some (User 1)))
    (exec (on "add remove" (User 1) []) b) = b.
Proof.
  intros b.
  assert (Forall (fun name => _events b !! name = None)
            (Lodash.words "add remove")) as H
    by (repeat constructor).
  split; [exact H|].
  exact (on_then_off_restores "add remove" (User 1) [] (Some (User 1)) b H).
Defined.
